(** * tiny-debounce-throttle: the debounce / throttle timer controllers

  A shallow embedding of [packages/tiny-debounce-throttle/src/index.ts]
  ([debounce] and [throttle]) together with a small model of the timer
  platform they run on ([setTimeout], [clearTimeout], [Date.now] and the
  passage of time), followed by the properties of the two controllers. *)

From Stdlib Require Import ZArith List Bool Lia.
From Stdlib Require String.
Import ListNotations.
Open Scope Z_scope.

(** ** Outcome of a call that may throw *)

Inductive completion (T : Type) : Type :=
| Normal (v : T)
| Throw (msg : String.string).
Arguments Normal {T} v.
Arguments Throw {T} msg.

(** ** The timer platform

    The platform is the one the package's test suite runs on: a clock that
    moves when the test says so, and timers that run when the clock passes
    their deadline.  A pending timer is an identifier, a deadline and a
    descriptor of the callback it will run.  Identifiers are [positive]: the
    handles returned by [setTimeout] are truthy (integers greater than zero
    in a browser, objects in Node), which is what the guards
    [if (timeoutId)] of the source rely on.  Timers are kept in insertion
    order. *)

Module Platform.
Section Timers.
Variable K : Type.

Record Timer := mkTimer { tid : positive; due : Z; job : K }.

(** The longest delay a timer keeps: delays are 32-bit signed integers. *)
Definition maxTimeout : Z := 2147483647.

(** The delay a timer really gets: 1 ms when the delay asked for is longer
    than [maxTimeout], nothing when it is negative, and 1 ms rather than
    nothing when the timer is set from inside a timer callback
    ([duringTick]), so that it waits for the clock to move. *)
Definition timer_delay (duringTick : bool) (delay : Z) : Z :=
  let d := Z.max 0 (if delay >? maxTimeout then 1 else delay) in
  if (d =? 0) && duringTick then 1 else d.

(** A timer is added at time [now], the platform having chosen the handle
    [id]. *)
Definition schedule (duringTick : bool) (k : K) (delay now : Z)
           (id : positive) (q : list Timer) : list Timer :=
  q ++ [mkTimer id (now + timer_delay duringTick delay) k].

(** [setTimeout(cb, delay)] called by the caller's own code, outside any
    timer callback. *)
Definition setTimeout (k : K) (delay now : Z) (id : positive)
           (q : list Timer) : list Timer :=
  schedule false k delay now id q.

(** [clearTimeout(id)]: the timer is removed, it can no longer fire. *)
Definition clearTimeout (id : positive) (q : list Timer) : list Timer :=
  filter (fun t => negb (Pos.eqb (tid t) id)) q.

(** The timer that fires first: least deadline, and among equal deadlines
    the one that was scheduled first. *)
Fixpoint earliest (q : list Timer) : option Timer :=
  match q with
  | [] => None
  | t :: q' =>
      match earliest q' with
      | None => Some t
      | Some u => if due u <? due t then Some u else Some t
      end
  end.

(** The next timer to run while the clock moves to [target], if any. *)
Definition next_due (target : Z) (q : list Timer) : option Timer :=
  match earliest q with
  | Some t => if due t <=? target then Some t else None
  | None => None
  end.
End Timers.
Arguments mkTimer {K}.
Arguments tid {K}.
Arguments due {K}.
Arguments job {K}.
Arguments schedule {K}.
Arguments setTimeout {K}.
Arguments clearTimeout {K}.
Arguments earliest {K}.
Arguments next_due {K}.
Arguments timer_delay : simpl never.
End Platform.
Import Platform.

(** One call of the wrapped function: when, with which [this], with which
  arguments.  [None] as [this] is [undefined]. *)
Record Delivery (Arg Ctx : Type) := mkDelivery {
at_time : Z;
thisArg : option Ctx;
argsOf : list Arg
}.
Arguments mkDelivery {Arg Ctx}.
Arguments at_time {Arg Ctx}.
Arguments thisArg {Arg Ctx}.
Arguments argsOf {Arg Ctx}.

(** ** debounce *)

Module Debounce.

(** The two arrow functions handed to [setTimeout]. *)
Inductive Callback := Trailing | MaxWait.

Record DebounceOptions := mkOptions {
opt_leading : option bool;
opt_trailing : option bool;
opt_maxWait : option Z
}.

(** What the closure keeps of its parameters. *)
Record Config := mkConfig {
wait : Z;
leading : bool;
trailing : bool;
maxWait : option Z
}.

(** [debounce(func, wait, options)]: the options are destructured with
  their defaults; nothing is checked and nothing is thrown. *)
Definition debounce (wait : Z) (options : DebounceOptions) : completion Config :=
Normal {| wait := wait;
          leading := match opt_leading options with Some b => b | None => false end;
          trailing := match opt_trailing options with Some b => b | None => true end;
          maxWait := opt_maxWait options |}.

Definition no_options : DebounceOptions := mkOptions None None None.

Section Debounced.
Context {Arg Ctx : Type}.

(** Clock, timer queue and record of the calls of [func] (most recent
    first), then the five [let] variables of the closure. *)
Record State := mkState {
  now : Z;
  nextId : positive;
  timers : list (Timer Callback);
  delivered : list (Delivery Arg Ctx);
  timeoutId : option positive;
  maxTimeoutId : option positive;
  lastArgs : option (list Arg);
  lastThis : option Ctx;
  lastCallTime : option Z
}.

Definition set_now v s :=
  mkState v (nextId s) (timers s) (delivered s) (timeoutId s)
          (maxTimeoutId s) (lastArgs s) (lastThis s) (lastCallTime s).
Definition set_nextId v s :=
  mkState (now s) v (timers s) (delivered s) (timeoutId s)
          (maxTimeoutId s) (lastArgs s) (lastThis s) (lastCallTime s).
Definition set_timers v s :=
  mkState (now s) (nextId s) v (delivered s) (timeoutId s)
          (maxTimeoutId s) (lastArgs s) (lastThis s) (lastCallTime s).
Definition set_delivered v s :=
  mkState (now s) (nextId s) (timers s) v (timeoutId s)
          (maxTimeoutId s) (lastArgs s) (lastThis s) (lastCallTime s).
Definition set_timeoutId v s :=
  mkState (now s) (nextId s) (timers s) (delivered s) v
          (maxTimeoutId s) (lastArgs s) (lastThis s) (lastCallTime s).
Definition set_maxTimeoutId v s :=
  mkState (now s) (nextId s) (timers s) (delivered s) (timeoutId s)
          v (lastArgs s) (lastThis s) (lastCallTime s).
Definition set_lastArgs v s :=
  mkState (now s) (nextId s) (timers s) (delivered s) (timeoutId s)
          (maxTimeoutId s) v (lastThis s) (lastCallTime s).
Definition set_lastThis v s :=
  mkState (now s) (nextId s) (timers s) (delivered s) (timeoutId s)
          (maxTimeoutId s) (lastArgs s) v (lastCallTime s).
Definition set_lastCallTime v s :=
  mkState (now s) (nextId s) (timers s) (delivered s) (timeoutId s)
          (maxTimeoutId s) (lastArgs s) (lastThis s) v.

(** A controller created at time [t0]: every variable is [undefined]. *)
Definition fresh (t0 : Z) : State :=
  mkState t0 1%positive [] [] None None None None None.

(** [func.apply(thisArg, args)] *)
Definition apply_func (this : option Ctx) (args : list Arg) (s : State) : State :=
  set_delivered (mkDelivery (now s) this args :: delivered s) s.

Definition do_clearTimeout (id : positive) (s : State) : State :=
  set_timers (clearTimeout id (timers s)) s.

(** [debounce] calls [setTimeout] in the debounced function only, which
    no timer callback calls. *)
Definition do_setTimeout (k : Callback) (delay : Z) (s : State) : positive * State :=
  (nextId s,
   set_nextId (Pos.succ (nextId s))
     (set_timers (setTimeout k delay (now s) (nextId s) (timers s)) s)).

Definition invokeFunc (s : State) : State :=
  let args := lastArgs s in
  let thisArg := lastThis s in
  let s := set_lastThis None (set_lastArgs None s) in
  match args with
  | Some a => apply_func thisArg a s
  | None => s
  end.

Definition cancel (s : State) : State :=
  let s := match timeoutId s with Some id => do_clearTimeout id s | None => s end in
  let s := match maxTimeoutId s with Some id => do_clearTimeout id s | None => s end in
  set_lastCallTime None
    (set_lastThis None
       (set_lastArgs None
          (set_maxTimeoutId None (set_timeoutId None s)))).

Definition flush (s : State) : State :=
  let s := match timeoutId s with
           | Some id => set_timeoutId None (do_clearTimeout id s)
           | None => s
           end in
  let s := match maxTimeoutId s with
           | Some id => set_maxTimeoutId None (do_clearTimeout id s)
           | None => s
           end in
  match lastArgs s with
  | Some _ => invokeFunc s
  | None => s
  end.

Definition pending (s : State) : bool :=
  match timeoutId s with Some _ => true | None => false end.

(** *** The two methods as calls that may throw

    [clearTimeout] accepts any handle and an assignment cannot fail: the
    one statement of [cancel] and [flush] that can throw is
    [func.apply(thisArg, args)], and neither method catches what it
    throws.  [outcome this args] is what [func] does when it is applied:
    [None] when it returns, [Some msg] when it throws. *)
Definition invokeFunc_call (outcome : option Ctx -> list Arg -> option String.string)
           (s : State) : completion State :=
  let args := lastArgs s in
  let thisArg := lastThis s in
  let s := set_lastThis None (set_lastArgs None s) in
  match args with
  | Some a =>
      match outcome thisArg a with
      | Some msg => Throw msg
      | None => Normal (apply_func thisArg a s)
      end
  | None => Normal s
  end.

Definition cancel_call (s : State) : completion State := Normal (cancel s).

Definition flush_call (outcome : option Ctx -> list Arg -> option String.string)
           (s : State) : completion State :=
  let s := match timeoutId s with
           | Some id => set_timeoutId None (do_clearTimeout id s)
           | None => s
           end in
  let s := match maxTimeoutId s with
           | Some id => set_maxTimeoutId None (do_clearTimeout id s)
           | None => s
           end in
  match lastArgs s with
  | Some _ => invokeFunc_call outcome s
  | None => Normal s
  end.

Variable cfg : Config.

(** The debounced function itself, called with [this] and [args]. *)
Definition debounced (this : option Ctx) (args : list Arg) (s : State) : State :=
  let time := now s in
  let isInvoking := match lastCallTime s with None => true | Some _ => false end in
  let s := set_lastCallTime (Some time)
             (set_lastThis this (set_lastArgs (Some args) s)) in
  let s := if isInvoking && leading cfg then invokeFunc s else s in
  let s := match timeoutId s with Some id => do_clearTimeout id s | None => s end in
  let s := if trailing cfg
           then let (id, s') := do_setTimeout Trailing (wait cfg) s in
                set_timeoutId (Some id) s'
           else s in
  match maxWait cfg, maxTimeoutId s with
  | Some m, None =>
      let (id, s') := do_setTimeout MaxWait m s in
      set_maxTimeoutId (Some id) s'
  | _, _ => s
  end.

(** The bodies of the two timer callbacks. *)
Definition fire (k : Callback) (s : State) : State :=
  match k with
  | Trailing =>
      let s := set_timeoutId None s in
      let s := match maxTimeoutId s with
               | Some id => set_maxTimeoutId None (do_clearTimeout id s)
               | None => s
               end in
      let s := if negb (leading cfg)
                  || match lastArgs s with Some _ => true | None => false end
               then invokeFunc s else s in
      set_lastCallTime None s
  | MaxWait =>
      let s := set_maxTimeoutId None s in
      let s := match timeoutId s with
               | Some id => set_timeoutId None (do_clearTimeout id s)
               | None => s
               end in
      let s := invokeFunc s in
      set_lastCallTime None s
  end.

(** The platform runs a due timer: the clock is at its deadline, the timer
    leaves the queue, its callback runs. *)
Definition run_timer (t : Timer Callback) (s : State) : State :=
  fire (job t)
       (set_timers (clearTimeout (tid t) (timers s))
                   (set_now (Z.max (now s) (due t)) s)).

(** The clock moves to [target]; the timers due on the way run in order. *)
Fixpoint advance (fuel : nat) (target : Z) (s : State) : State :=
  match fuel with
  | O => set_now (Z.max (now s) target) s
  | S fuel' =>
      match next_due target (timers s) with
      | Some t => advance fuel' target (run_timer t s)
      | None => set_now (Z.max (now s) target) s
      end
  end.

(** [d] milliseconds pass.  A callback of [debounce] schedules no timer, so
    one round per queued timer is enough (see [tick_settled]). *)
Definition tick (d : Z) (s : State) : State :=
  advance (length (timers s)) (now s + d) s.

Inductive event :=
| Call (this : option Ctx) (args : list Arg)
| Tick (d : Z)
| Cancel
| Flush.

Definition step (s : State) (e : event) : State :=
  match e with
  | Call this args => debounced this args s
  | Tick d => tick d s
  | Cancel => cancel s
  | Flush => flush s
  end.

Definition run (es : list event) (s : State) : State := fold_left step es s.

Definition reachable (s : State) : Prop :=
  exists t0 es, s = run es (fresh t0).

(** *** Vocabulary of the properties *)

(** Nothing recorded and nothing scheduled: the state of a new controller,
    but for the clock, the handle counter and the calls already made. *)
Definition idle (s : State) : Prop :=
  timers s = [] /\ timeoutId s = None /\ maxTimeoutId s = None /\
  lastArgs s = None /\ lastThis s = None /\ lastCallTime s = None.

(** The delay a callback was scheduled with. *)
Definition delay_of (k : Callback) : Z :=
  match k with
  | Trailing => wait cfg
  | MaxWait => match maxWait cfg with Some m => m | None => 0 end
  end.

(** The handle variable that owns the timer of a callback. *)
Definition handle_of (k : Callback) (s : State) : option positive :=
  match k with
  | Trailing => timeoutId s
  | MaxWait => maxTimeoutId s
  end.

(** The queue and the two handle variables agree: every queued timer is
    owned by the handle of its kind, every handle names a queued timer, the
    handles are distinct and older than the next one, and deadlines lie
    between the clock and the clock plus the configured delay. *)
Record consistent (s : State) : Prop := mkConsistent {
  co_owner : forall t, In t (timers s) -> handle_of (job t) s = Some (tid t);
  co_live : forall k i, handle_of k s = Some i ->
            exists t, In t (timers s) /\ tid t = i /\ job t = k;
  co_fresh : forall t, In t (timers s) -> (tid t < nextId s)%positive;
  co_apart : forall i, timeoutId s = Some i -> maxTimeoutId s <> Some i;
  co_after : forall t, In t (timers s) -> now s <= due t;
  co_bound : forall t, In t (timers s) ->
             due t <= now s + Z.max 0 (delay_of (job t));
  co_trailing : trailing cfg = false -> timeoutId s = None;
  co_this : lastArgs s = None -> lastThis s = None;
  co_quiet : leading cfg = false -> lastArgs s = None -> timers s = []
}.

(** One trailing timer is scheduled, set with delay [wait] by the call made
    at [tl] with [this] and [args], and no max-wait timer. *)
Definition waiting (tl : Z) (this : option Ctx) (args : list Arg)
           (s : State) : Prop :=
  exists id,
    timers s = [mkTimer id (tl + timer_delay false (wait cfg)) Trailing] /\
    timeoutId s = Some id /\ maxTimeoutId s = None /\
    lastArgs s = Some args /\ lastThis s = this.



(** The recorded call, and every call of [func] made since [base], come
    from the calls listed in [P]. *)
Definition traced (P : list (option Ctx * list Arg))
           (base : list (Delivery Arg Ctx)) (s : State) : Prop :=
  (forall a, lastArgs s = Some a -> In (lastThis s, a) P) /\
  exists new, delivered s = new ++ base /\
              forall x, In x new -> In (thisArg x, argsOf x) P.

(** Events of a caller that only calls and waits. *)
Definition call_or_tick (e : event) : Prop :=
  match e with Call _ _ | Tick _ => True | _ => False end.

(** Events that fire no timer and do not cancel. *)
Definition call_or_flush (e : event) : Prop :=
  match e with Call _ _ | Flush => True | _ => False end.

(** A burst: every call comes less than [w] ms after the previous one,
    [acc] being the time elapsed since that one. *)
Fixpoint within_wait (w acc : Z) (es : list event) : Prop :=
  match es with
  | [] => True
  | Call _ _ :: es' => within_wait w 0 es'
  | Tick d :: es' => 0 <= d /\ acc + d < w /\ within_wait w (acc + d) es'
  | _ :: _ => False
  end.

(** [this] and arguments of the last call of a sequence. *)
Fixpoint last_call (c : option Ctx * list Arg) (es : list event)
  : option Ctx * list Arg :=
  match es with
  | [] => c
  | Call this args :: es' => last_call (this, args) es'
  | _ :: es' => last_call c es'
  end.

(** Time elapsed since the last call of a sequence. *)
Fixpoint since_last (acc : Z) (es : list event) : Z :=
  match es with
  | [] => acc
  | Call _ _ :: es' => since_last 0 es'
  | Tick d :: es' => since_last (acc + d) es'
  | _ :: es' => since_last acc es'
  end.

(** The calls made in a sequence of events. *)
Fixpoint calls_of (es : list event) : list (option Ctx * list Arg) :=
  match es with
  | [] => []
  | Call this args :: es' => (this, args) :: calls_of es'
  | _ :: es' => calls_of es'
  end.

(** Every queued trailing timer was set with delay [wait] by the last
    call. *)
Definition punctual (s : State) : Prop :=
  forall t, In t (timers s) -> job t = Trailing ->
            exists tl, lastCallTime s = Some tl /\ tl <= now s /\
                       due t = tl + timer_delay false (wait cfg).

(** Calls of [func] made so far, plus one if a call is recorded. *)
Definition owed (s : State) : nat :=
  (length (delivered s)
   + match lastArgs s with Some _ => 1 | None => 0 end)%nat.

(** No two queued timers share a handle. *)
Definition distinct_handles (s : State) : Prop :=
  NoDup (map tid (timers s)).

(** A burst is under way: one trailing timer is scheduled, set with delay
    [wait] by the call made at [tl], no max-wait timer, and [r] is the call
    recorded since the leading edge, if any. *)
Definition holding (tl : Z) (r : option (option Ctx * list Arg))
           (s : State) : Prop :=
  exists id,
    timers s = [mkTimer id (tl + timer_delay false (wait cfg)) Trailing] /\
    timeoutId s = Some id /\ maxTimeoutId s = None /\
    lastCallTime s <> None /\
    lastArgs s = option_map snd r /\
    lastThis s = match r with Some (this, _) => this | None => None end.

(** The last call of a sequence, if it has one; [r] otherwise. *)
Fixpoint last_record (r : option (option Ctx * list Arg)) (es : list event)
  : option (option Ctx * list Arg) :=
  match es with
  | [] => r
  | Call this args :: es' => last_record (Some (this, args)) es'
  | _ :: es' => last_record r es'
  end.

(** Events other than [flush]. *)
Definition not_flush (e : event) : Prop :=
  match e with Flush => False | _ => True end.

(** A new controller at the clock and handle counter of [s]. *)
Definition restart (s : State) : State :=
  mkState (now s) (nextId s) [] [] None None None None None.

End Debounced.
Arguments State : clear implicits.
Arguments event : clear implicits.

Definition defaults (w : Z) : Config := mkConfig w false true None.

End Debounce.

(** ** throttle *)

Module Throttle.

(** The arrow function handed to [setTimeout]. *)
Inductive Callback := Cooldown.

Record Config := mkConfig { wait : Z }.

(** [throttle(func, wait)]: nothing is checked and nothing is thrown. *)
Definition throttle (wait : Z) : completion Config :=
  Normal {| wait := wait |}.

Section Throttled.
Context {Arg Ctx : Type}.

(** Clock, timer queue and record of the calls of [func] (most recent
    first), then the four [let] variables of the closure.  [duringTick]
    is the platform's flag that a timer callback is running. *)
Record State := mkState {
  now : Z;
  nextId : positive;
  timers : list (Timer Callback);
  duringTick : bool;
  delivered : list (Delivery Arg Ctx);
  inThrottle : bool;
  lastArgs : option (list Arg);
  lastThis : option Ctx;
  timeoutId : option positive
}.

Definition set_now v s :=
  mkState v (nextId s) (timers s) (duringTick s) (delivered s) (inThrottle s)
          (lastArgs s) (lastThis s) (timeoutId s).
Definition set_nextId v s :=
  mkState (now s) v (timers s) (duringTick s) (delivered s) (inThrottle s)
          (lastArgs s) (lastThis s) (timeoutId s).
Definition set_timers v s :=
  mkState (now s) (nextId s) v (duringTick s) (delivered s) (inThrottle s)
          (lastArgs s) (lastThis s) (timeoutId s).
Definition set_duringTick v s :=
  mkState (now s) (nextId s) (timers s) v (delivered s) (inThrottle s)
          (lastArgs s) (lastThis s) (timeoutId s).
Definition set_delivered v s :=
  mkState (now s) (nextId s) (timers s) (duringTick s) v (inThrottle s)
          (lastArgs s) (lastThis s) (timeoutId s).
Definition set_inThrottle v s :=
  mkState (now s) (nextId s) (timers s) (duringTick s) (delivered s) v
          (lastArgs s) (lastThis s) (timeoutId s).
Definition set_lastArgs v s :=
  mkState (now s) (nextId s) (timers s) (duringTick s) (delivered s)
          (inThrottle s) v (lastThis s) (timeoutId s).
Definition set_lastThis v s :=
  mkState (now s) (nextId s) (timers s) (duringTick s) (delivered s)
          (inThrottle s) (lastArgs s) v (timeoutId s).
Definition set_timeoutId v s :=
  mkState (now s) (nextId s) (timers s) (duringTick s) (delivered s)
          (inThrottle s) (lastArgs s) (lastThis s) v.

(** A controller created at time [t0]. *)
Definition fresh (t0 : Z) : State :=
  mkState t0 1%positive [] false [] false None None None.

(** [func.apply(this, args)] *)
Definition apply_func (this : option Ctx) (args : list Arg) (s : State) : State :=
  set_delivered (mkDelivery (now s) this args :: delivered s) s.

Definition do_clearTimeout (id : positive) (s : State) : State :=
  set_timers (clearTimeout id (timers s)) s.

(** [throttle] calls [setTimeout] in the throttled function, which the
    cooldown callback calls too: the platform's flag goes with the call. *)
Definition do_setTimeout (k : Callback) (delay : Z) (s : State) : positive * State :=
  (nextId s,
   set_nextId (Pos.succ (nextId s))
     (set_timers (schedule (duringTick s) k delay (now s) (nextId s)
                           (timers s)) s)).

Definition cancel (s : State) : State :=
  let s := match timeoutId s with
           | Some id => set_timeoutId None (do_clearTimeout id s)
           | None => s
           end in
  set_lastThis None (set_lastArgs None (set_inThrottle false s)).

(** [cancel] as a call that may throw: it calls [clearTimeout] and
    assigns, and neither can fail. *)
Definition cancel_call (s : State) : completion State := Normal (cancel s).

Variable cfg : Config.

(** The throttled function itself, called with [this] and [args]. *)
Definition throttled (this : option Ctx) (args : list Arg) (s : State) : State :=
  let s := set_lastThis this (set_lastArgs (Some args) s) in
  if negb (inThrottle s) then
    let s := apply_func this args s in
    let s := set_lastThis None (set_lastArgs None s) in
    let s := set_inThrottle true s in
    let (id, s') := do_setTimeout Cooldown (wait cfg) s in
    set_timeoutId (Some id) s'
  else s.

(** The body of the timer callback; it calls [throttled] again. *)
Definition fire (k : Callback) (s : State) : State :=
  match k with
  | Cooldown =>
      let s := set_inThrottle false s in
      match lastArgs s with
      | Some a => throttled (lastThis s) a s
      | None => s
      end
  end.

(** The platform runs a due timer: the clock moves to its deadline, the
    timer leaves the queue and its callback runs with [duringTick] set. *)
Definition run_timer (t : Timer Callback) (s : State) : State :=
  set_duringTick false
    (fire (job t)
       (set_duringTick true
          (set_timers (clearTimeout (tid t) (timers s))
                      (set_now (Z.max (now s) (due t)) s)))).

Fixpoint advance (fuel : nat) (target : Z) (s : State) : State :=
  match fuel with
  | O => set_now (Z.max (now s) target) s
  | S fuel' =>
      match next_due target (timers s) with
      | Some t => advance fuel' target (run_timer t s)
      | None => set_now (Z.max (now s) target) s
      end
  end.

(** What bounds the number of timers that can still run before a new call:
    a callback schedules a timer only by consuming the recorded call. *)
Definition rounds (s : State) : nat :=
  (2 * length (timers s) + match lastArgs s with Some _ => 1 | None => 0 end)%nat.

(** [d] milliseconds pass (see [throttle_tick_settled] for the number of
    rounds). *)
Definition tick (d : Z) (s : State) : State :=
  advance (rounds s) (now s + d) s.

Inductive event :=
| Call (this : option Ctx) (args : list Arg)
| Tick (d : Z)
| Cancel.

Definition step (s : State) (e : event) : State :=
  match e with
  | Call this args => throttled this args s
  | Tick d => tick d s
  | Cancel => cancel s
  end.

Definition run (es : list event) (s : State) : State := fold_left step es s.

Definition reachable (s : State) : Prop :=
  exists t0 es, s = run es (fresh t0).

(** *** Vocabulary of the properties *)

Definition idle (s : State) : Prop :=
  timers s = [] /\ inThrottle s = false /\ lastArgs s = None /\
  lastThis s = None /\ timeoutId s = None.

(** What the caller and the platform can tell of a state: everything but
    the handle variable [timeoutId], which only [cancel] reads, to clear
    the timer it names. *)
Definition observe (s : State) :=
  (now s, nextId s, timers s, duringTick s, delivered s,
   (inThrottle s, lastArgs s, lastThis s)).

(** No [this] is kept without its arguments. *)
Definition tidy (s : State) : Prop := lastArgs s = None -> lastThis s = None.

Definition call_or_tick (e : event) : Prop :=
  match e with Call _ _ | Tick _ => True | Cancel => False end.

(** Consecutive calls of [func] (most recent first) are [w] ms apart. *)
Fixpoint spaced (w : Z) (l : list (Delivery Arg Ctx)) : Prop :=
  match l with
  | x :: (y :: _) as l' => at_time y + w <= at_time x /\ spaced w l'
  | _ => True
  end.

(** The queue holds the cooldown timer exactly during a cooldown, and the
    handle variable names it; a call is recorded only during a cooldown. *)
Definition consistent (s : State) : Prop :=
  duringTick s = false /\
  if inThrottle s
  then exists id D, timers s = [mkTimer id D Cooldown] /\
                    timeoutId s = Some id /\ (id < nextId s)%positive /\
                    now s <= D <= now s + Z.max 1 (wait cfg)
  else timers s = [] /\ lastArgs s = None.

(** The cooldown that is running started with the most recent call of
    [func]; outside a cooldown that call is at least [wait] ms old. *)
Definition paced (s : State) : Prop :=
  spaced (wait cfg) (delivered s) /\
  match delivered s with
  | [] => inThrottle s = false
  | x :: _ =>
      if inThrottle s
      then forall t, In t (timers s) -> at_time x + wait cfg <= due t
      else at_time x + wait cfg <= now s
  end.

(** The recorded call, and every call of [func] made since [base], come
    from the calls listed in [P]. *)
Definition traced (P : list (option Ctx * list Arg))
           (base : list (Delivery Arg Ctx)) (s : State) : Prop :=
  (forall a, lastArgs s = Some a -> In (lastThis s, a) P) /\
  exists new, delivered s = new ++ base /\
              forall x, In x new -> In (thisArg x, argsOf x) P.

Fixpoint calls_of (es : list event) : list (option Ctx * list Arg) :=
  match es with
  | [] => []
  | Call this args :: es' => (this, args) :: calls_of es'
  | _ :: es' => calls_of es'
  end.

(** Calls of [func] made so far, plus one if a call is recorded. *)
Definition owed (s : State) : nat :=
  (length (delivered s)
   + match lastArgs s with Some _ => 1 | None => 0 end)%nat.

(** Calls and waits that all fall less than [w] ms after the call that
    started the cooldown, [acc] being the time elapsed since that call. *)
Fixpoint inside_window (w acc : Z) (es : list event) : Prop :=
  match es with
  | [] => True
  | Call _ _ :: es' => inside_window w acc es'
  | Tick d :: es' => 0 <= d /\ acc + d < w /\ inside_window w (acc + d) es'
  | Cancel :: _ => False
  end.

(** Time elapsed over a sequence of events. *)
Fixpoint elapsed (acc : Z) (es : list event) : Z :=
  match es with
  | [] => acc
  | Tick d :: es' => elapsed (acc + d) es'
  | _ :: es' => elapsed acc es'
  end.

(** The last call of a sequence, if it has one; [r] otherwise. *)
Fixpoint last_record (r : option (option Ctx * list Arg)) (es : list event)
  : option (option Ctx * list Arg) :=
  match es with
  | [] => r
  | Call this args :: es' => last_record (Some (this, args)) es'
  | _ :: es' => last_record r es'
  end.

(** A cooldown is running until [D], with [r] the call recorded, if any. *)
Definition cooling (D : Z) (r : option (option Ctx * list Arg))
           (s : State) : Prop :=
  exists id,
    timers s = [mkTimer id D Cooldown] /\ inThrottle s = true /\
    lastArgs s = option_map snd r /\
    lastThis s = match r with Some (this, _) => this | None => None end.

End Throttled.
Arguments State : clear implicits.
Arguments event : clear implicits.

End Throttle.

(** ** throttle.raf

    The frame-synchronised variant.  The platform keeps the handles of the
    animation frame callbacks in the order they were requested; there is one
    callback closure only, so a handle is all that is queued. *)

Module Raf.

Section Throttled.
Context {Arg Ctx : Type}.

(** Clock, frame callback queue and record of the calls of [func] (most
    recent first), then the three [let] variables of the closure. *)
Record State := mkState {
  now : Z;
  nextId : positive;
  frames : list positive;
  delivered : list (Delivery Arg Ctx);
  rafId : option positive;
  lastArgs : option (list Arg);
  lastThis : option Ctx
}.

Definition set_now v s :=
  mkState v (nextId s) (frames s) (delivered s) (rafId s)
          (lastArgs s) (lastThis s).
Definition set_nextId v s :=
  mkState (now s) v (frames s) (delivered s) (rafId s)
          (lastArgs s) (lastThis s).
Definition set_frames v s :=
  mkState (now s) (nextId s) v (delivered s) (rafId s)
          (lastArgs s) (lastThis s).
Definition set_delivered v s :=
  mkState (now s) (nextId s) (frames s) v (rafId s)
          (lastArgs s) (lastThis s).
Definition set_rafId v s :=
  mkState (now s) (nextId s) (frames s) (delivered s) v
          (lastArgs s) (lastThis s).
Definition set_lastArgs v s :=
  mkState (now s) (nextId s) (frames s) (delivered s) (rafId s)
          v (lastThis s).
Definition set_lastThis v s :=
  mkState (now s) (nextId s) (frames s) (delivered s) (rafId s)
          (lastArgs s) v.

(** A controller created at time [t0]. *)
Definition fresh (t0 : Z) : State :=
  mkState t0 1%positive [] [] None None None.

(** [func.apply(this, args)] *)
Definition apply_func (this : option Ctx) (args : list Arg) (s : State) : State :=
  set_delivered (mkDelivery (now s) this args :: delivered s) s.

(** [requestAnimationFrame(cb)] *)
Definition requestAnimationFrame (s : State) : positive * State :=
  (nextId s,
   set_nextId (Pos.succ (nextId s)) (set_frames (frames s ++ [nextId s]) s)).

(** [cancelAnimationFrame(id)] *)
Definition cancelAnimationFrame (id : positive) (s : State) : State :=
  set_frames (filter (fun h => negb (Pos.eqb h id)) (frames s)) s.

Definition cancel (s : State) : State :=
  let s := match rafId s with
           | Some id => set_rafId None (cancelAnimationFrame id s)
           | None => s
           end in
  set_lastArgs None s.

(** The throttled function itself, called with [this] and [args]. *)
Definition throttled (this : option Ctx) (args : list Arg) (s : State) : State :=
  let s := set_lastThis this (set_lastArgs (Some args) s) in
  match rafId s with
  | None =>
      let (id, s') := requestAnimationFrame s in
      set_rafId (Some id) s'
  | Some _ => s
  end.

(** The body of the frame callback. *)
Definition on_frame (s : State) : State :=
  let s := set_rafId None s in
  match lastArgs s with
  | Some a => set_lastArgs None (apply_func (lastThis s) a s)
  | None => s
  end.

(** The platform runs the callbacks that were queued when the frame began,
    in order, each one leaving the queue before it runs; one cancelled in
    the meantime is skipped. *)
Definition run_callbacks (handles : list positive) (s : State) : State :=
  fold_left
    (fun s h =>
       if existsb (Pos.eqb h) (frames s)
       then on_frame (cancelAnimationFrame h s)
       else s)
    handles s.

(** The next frame comes, [d] ms later. *)
Definition frame (d : Z) (s : State) : State :=
  let s := set_now (Z.max (now s) (now s + d)) s in
  run_callbacks (frames s) s.

Inductive event :=
| Call (this : option Ctx) (args : list Arg)
| Frame (d : Z)
| Cancel.

Definition step (s : State) (e : event) : State :=
  match e with
  | Call this args => throttled this args s
  | Frame d => frame d s
  | Cancel => cancel s
  end.

Definition run (es : list event) (s : State) : State := fold_left step es s.

Definition reachable (s : State) : Prop :=
  exists t0 es, s = run es (fresh t0).

(** *** Vocabulary of the properties *)

(** At most one frame callback is queued, [rafId] names it, and a call is
    recorded only while one is queued. *)
Definition consistent (s : State) : Prop :=
  match rafId s with
  | Some id => frames s = [id] /\ (id < nextId s)%positive
  | None => frames s = [] /\ lastArgs s = None
  end.

Fixpoint calls_of (es : list event) : list (option Ctx * list Arg) :=
  match es with
  | [] => []
  | Call this args :: es' => (this, args) :: calls_of es'
  | _ :: es' => calls_of es'
  end.

(** The number of frames in a sequence of events. *)
Fixpoint frames_of (es : list event) : nat :=
  match es with
  | [] => O
  | Frame _ :: es' => S (frames_of es')
  | _ :: es' => frames_of es'
  end.

(** Calls of [func] made so far, plus one if a call is recorded. *)
Definition owed (s : State) : nat :=
  (length (delivered s)
   + match lastArgs s with Some _ => 1 | None => 0 end)%nat.

(** The recorded call, and every call of [func] made since [base], come
    from the calls listed in [P]. *)
Definition traced (P : list (option Ctx * list Arg))
           (base : list (Delivery Arg Ctx)) (s : State) : Prop :=
  (forall a, lastArgs s = Some a -> In (lastThis s, a) P) /\
  exists new, delivered s = new ++ base /\
              forall x, In x new -> In (thisArg x, argsOf x) P.

End Throttled.
Arguments State : clear implicits.
Arguments event : clear implicits.

End Raf.

(** * Properties *)

(** ** The timer queue *)

Module TimerFacts.

(** What [timer_delay] makes of a delay. *)
Lemma timer_delay_bounds b delay :
  0 <= timer_delay b delay <= Z.max 1 delay /\
  timer_delay false delay <= Z.max 0 delay /\
  (b = true -> 1 <= timer_delay b delay).
Proof.
  unfold timer_delay, maxTimeout.
  destruct (Z.gtb_spec delay 2147483647);
    destruct (Z.eqb_spec (Z.max 0 1) 0); try lia;
    destruct (Z.eqb_spec (Z.max 0 delay) 0); destruct b; simpl; lia.
Qed.

Lemma timer_delay_kept b delay :
  0 <= delay <= maxTimeout ->
  timer_delay false delay = delay /\
  timer_delay true delay = Z.max 1 delay /\
  (1 <= delay -> timer_delay b delay = delay).
Proof.
  unfold timer_delay, maxTimeout. intros H.
  destruct (Z.gtb_spec delay 2147483647); [lia|].
  destruct (Z.eqb_spec (Z.max 0 delay) 0); destruct b; simpl; lia.
Qed.

Lemma timer_delay_overflow b delay :
  maxTimeout < delay -> timer_delay b delay = 1.
Proof.
  unfold timer_delay, maxTimeout. intros H.
  destruct (Z.gtb_spec delay 2147483647); [|lia].
  destruct b; reflexivity.
Qed.

Section Queue.
Context {K : Type}.
Implicit Types (q : list (Timer K)) (t u : Timer K).

Lemma In_clearTimeout id q t :
  In t (clearTimeout id q) <-> In t q /\ tid t <> id.
Proof.
  unfold clearTimeout. rewrite filter_In, negb_true_iff, Pos.eqb_neq.
  reflexivity.
Qed.

Lemma In_schedule b k delay now id q t :
  In t (schedule b k delay now id q) <->
  In t q \/ t = mkTimer id (now + timer_delay b delay) k.
Proof.
  unfold schedule. rewrite in_app_iff. simpl. intuition congruence.
Qed.

Lemma In_setTimeout k delay now id q t :
  In t (setTimeout k delay now id q) <->
  In t q \/ t = mkTimer id (now + timer_delay false delay) k.
Proof. apply In_schedule. Qed.

Lemma clearTimeout_length q id :
  (length (clearTimeout id q) <= length q)%nat.
Proof.
  induction q as [|u q IH]; simpl; [lia|].
  destruct (negb (tid u =? id)%positive); simpl; lia.
Qed.

Lemma clearTimeout_shrinks q t :
  In t q -> (length (clearTimeout (tid t) q) < length q)%nat.
Proof.
  induction q as [|u q IH]; simpl; [tauto|].
  intros [->|Hin].
  - rewrite Pos.eqb_refl. simpl.
    pose proof (clearTimeout_length q (tid t)). lia.
  - specialize (IH Hin).
    destruct (negb (tid u =? tid t)%positive); simpl; lia.
Qed.

Lemma clearTimeout_absent q id :
  (forall t, In t q -> tid t <> id) -> clearTimeout id q = q.
Proof.
  induction q as [|u q IH]; simpl; intros H; [reflexivity|].
  assert (Hu : tid u <> id) by (apply H; now left).
  apply Pos.eqb_neq in Hu. rewrite Hu. simpl.
  f_equal. apply IH. intros t Ht. apply H. now right.
Qed.

Lemma earliest_In q t : earliest q = Some t -> In t q.
Proof.
  revert t. induction q as [|u q IH]; simpl; intros t; [discriminate|].
  destruct (earliest q) as [v|].
  - destruct (due v <? due u); intros [= <-]; auto.
  - intros [= <-]; auto.
Qed.

Lemma earliest_least q t :
  earliest q = Some t -> forall u, In u q -> due t <= due u.
Proof.
  revert t. induction q as [|v q IH]; simpl; intros t; [discriminate|].
  destruct (earliest q) as [m|] eqn:E.
  - specialize (IH m eq_refl).
    destruct (due m <? due v) eqn:C; intros [= <-] u [<-|Hu].
    + apply Z.ltb_lt in C. lia.
    + auto.
    + lia.
    + apply Z.ltb_ge in C. specialize (IH u Hu). lia.
  - intros [= <-] u [<-|Hu]; [lia|].
    destruct q; [contradiction|]. simpl in E.
    destruct (earliest q); [destruct (_ <? _)|]; discriminate.
Qed.

Lemma earliest_none q : earliest q = None -> q = [].
Proof.
  destruct q as [|u q]; simpl; [reflexivity|].
  destruct (earliest q); [destruct (_ <? _)|]; discriminate.
Qed.

Lemma next_due_Some target q t :
  next_due target q = Some t ->
  In t q /\ due t <= target /\ forall u, In u q -> due t <= due u.
Proof.
  unfold next_due. destruct (earliest q) as [m|] eqn:E; [|discriminate].
  destruct (due m <=? target) eqn:C; [|discriminate].
  intros [= <-]. apply Z.leb_le in C.
  eauto using earliest_In, earliest_least.
Qed.

Lemma next_due_None target q :
  next_due target q = None -> forall u, In u q -> target < due u.
Proof.
  unfold next_due. destruct (earliest q) as [m|] eqn:E.
  - destruct (due m <=? target) eqn:C; [discriminate|].
    intros _ u Hu. apply Z.leb_gt in C.
    pose proof (earliest_least q m E u Hu). lia.
  - intros _ u Hu. apply earliest_none in E. subst. contradiction.
Qed.

Lemma next_due_single target t :
  next_due target [t] = if due t <=? target then Some t else None.
Proof. reflexivity. Qed.

End Queue.
End TimerFacts.
Import TimerFacts.

(** ** debounce *)

Module DebounceFacts.
Import Debounce.

Lemma no_In_nil {A : Type} (l : list A) : (forall x, ~ In x l) -> l = [].
Proof.
  destruct l as [|a l]; [reflexivity|].
  intros H. exfalso. apply (H a). now left.
Qed.

Section Facts.
Context {Arg Ctx : Type}.
Variable cfg : Config.
Implicit Types (s : State Arg Ctx) (t u : Timer Callback) (k : Callback).

(** *** The callbacks schedule nothing *)

Lemma invokeFunc_timers s : timers (invokeFunc s) = timers s.
Proof. unfold invokeFunc. destruct (lastArgs s); reflexivity. Qed.

Lemma fire_length k s :
  (length (timers (fire cfg k s)) <= length (timers s))%nat.
Proof.
  destruct s as [n i q dl ti mi la lt lc].
  destruct k; unfold fire; simpl.
  - destruct mi as [m|]; simpl;
      destruct (negb (leading cfg) || _); simpl;
      rewrite ?invokeFunc_timers; simpl;
      auto using clearTimeout_length.
  - destruct ti as [m|]; simpl; rewrite ?invokeFunc_timers; simpl;
      auto using clearTimeout_length.
Qed.

Lemma run_timer_shrinks t s :
  In t (timers s) ->
  (length (timers (run_timer cfg t s)) < length (timers s))%nat.
Proof.
  intros Hin. unfold run_timer.
  eapply Nat.le_lt_trans; [apply fire_length|].
  simpl. now apply clearTimeout_shrinks.
Qed.

(** A property kept by every timer that runs and by the clock moving
    when none is due is kept by [advance], given one round per timer. *)
Lemma advance_ind (P : State Arg Ctx -> Prop) target :
  (forall s t, P s -> next_due target (timers s) = Some t ->
               P (run_timer cfg t s)) ->
  (forall s, P s -> next_due target (timers s) = None ->
             P (set_now (Z.max (now s) target) s)) ->
  forall n s, (length (timers s) <= n)%nat -> P s ->
              P (advance cfg n target s).
Proof.
  intros Hrun Hclock. induction n as [|n IH]; intros s Hn HP; simpl.
  - apply Hclock; [assumption|].
    destruct (timers s); [reflexivity|simpl in Hn; lia].
  - destruct (next_due target (timers s)) as [t|] eqn:E.
    + apply IH; [|now apply Hrun].
      apply next_due_Some in E. destruct E as [Hin _].
      pose proof (run_timer_shrinks t s Hin). lia.
    + now apply Hclock.
Qed.

Lemma consistent_fresh start : consistent cfg (fresh start : State Arg Ctx).
Proof.
  constructor; simpl; try tauto; try discriminate.
  intros [] i; discriminate.
Qed.

Ltac timers_in :=
  repeat match goal with
         | H : In _ (clearTimeout _ _) |- _ => apply In_clearTimeout in H
         | H : In _ (setTimeout _ _ _ _ _) |- _ => apply In_setTimeout in H
         | H : _ /\ _ |- _ => destruct H
         | H : _ \/ _ |- _ => destruct H
         | H : In _ (_ :: _) |- _ => simpl in H
         | H : In _ [] |- _ => destruct H
         | H : exists _, _ |- _ => destruct H
         end.

Ltac close_co Ho Hf Hn Hb :=
  try match goal with
      | |- context [timer_delay false ?d] =>
          pose proof (timer_delay_bounds false d)
      end;
  match goal with
  | H : In ?t _ |- _ =>
      pose proof (Ho t H); pose proof (Hf t H);
      pose proof (Hn t H); pose proof (Hb t H);
      destruct (job t) eqn:?; simpl in *;
      first [congruence | lia | reflexivity]
  | _ => first [reflexivity | congruence | lia]
  end.

Ltac live_co Hl Hf Ha :=
  let k := fresh "k" in let j := fresh "j" in let Hk := fresh "Hk" in
  intros k j Hk; destruct k; simpl in Hk; try discriminate;
  injection Hk as <-;
  try (pose proof (Ha _ eq_refl));
  first
    [ match goal with
      | |- exists t, _ /\ tid t = ?j /\ job t = ?k =>
          eexists (mkTimer j _ k); split;
          [ repeat rewrite In_setTimeout;
            first [right; reflexivity | left; right; reflexivity]
          | split; reflexivity ]
      end
    | let t := fresh "t" in let Hin := fresh in let Hid := fresh in let Hj := fresh in
      first [ destruct (Hl MaxWait _ eq_refl) as (t & Hin & Hid & Hj)
            | destruct (Hl Trailing _ eq_refl) as (t & Hin & Hid & Hj) ];
      exists t; repeat rewrite In_setTimeout; repeat rewrite In_clearTimeout;
      pose proof (Hf t Hin);
      intuition (subst; try congruence) ].

Ltac apart_co Hl Hf :=
  let j := fresh "j" in
  intros j [= <-];
  try (let t := fresh "t" in let Hin := fresh in let Hid := fresh in let Hj := fresh in
       destruct (Hl MaxWait _ eq_refl) as (t & Hin & Hid & Hj);
       pose proof (Hf t Hin); subst);
  first [discriminate | intros [=]; lia].

Lemma consistent_debounced this args s :
  consistent cfg s -> consistent cfg (debounced cfg this args s).
Proof.
  intros [Ho Hl Hf Ha Hn Hb Ht Hth Hq].
  destruct s as [n i q dl ti mi la lt lc].
  destruct cfg as [w ld tr mw].
  unfold debounced, delay_of, handle_of in *. simpl in *.
  destruct tr; [|rewrite (Ht eq_refl) in *]; clear Ht.
  all: destruct lc, ld, ti, mw, mi; simpl.
  all: constructor; simpl.
  all: try discriminate.
  all: try (intros t Hin; timers_in; subst; simpl in *; close_co Ho Hf Hn Hb).
  all: try tauto.
  all: try (live_co Hl Hf Ha).
  all: try (apart_co Hl Hf).
Qed.

Ltac empty_co Ho Hf Hn Hb :=
  try (intros; apply no_In_nil; intros ? ?);
  try (let t := fresh "t" in let Hin := fresh "Hin" in intros t Hin);
  timers_in; subst; simpl in *; close_co Ho Hf Hn Hb.

Lemma consistent_cancel s : consistent cfg s -> consistent cfg (cancel s).
Proof.
  intros [Ho Hl Hf Ha Hn Hb Ht Hth Hq].
  destruct s as [n i q dl ti mi la lt lc].
  unfold cancel, delay_of, handle_of in *. simpl in *.
  destruct ti, mi; simpl.
  all: constructor; simpl; try discriminate; try tauto.
  all: try (intros [] ?; discriminate).
  all: empty_co Ho Hf Hn Hb.
Qed.

Lemma consistent_flush s : consistent cfg s -> consistent cfg (flush s).
Proof.
  intros [Ho Hl Hf Ha Hn Hb Ht Hth Hq].
  destruct s as [n i q dl ti mi la lt lc].
  unfold flush, delay_of, handle_of in *. simpl in *.
  destruct ti, mi, la; simpl.
  all: constructor; simpl; try discriminate; try tauto.
  all: try (intros [] ?; discriminate).
  all: empty_co Ho Hf Hn Hb.
Qed.

Lemma consistent_run_timer target t s :
  consistent cfg s -> next_due target (timers s) = Some t ->
  consistent cfg (run_timer cfg t s).
Proof.
  intros [Ho Hl Hf Ha Hn Hb Ht Hth Hq] Hd.
  apply next_due_Some in Hd. destruct Hd as (Hin & _ & _).
  pose proof (Ho t Hin) as Hown.
  destruct s as [n i q dl ti mi la lt lc].
  unfold run_timer, fire, delay_of, handle_of in *. simpl in *.
  destruct (job t) eqn:Hjob; simpl in *; subst.
  - destruct mi, (leading cfg), la; simpl.
    all: constructor; simpl; try discriminate; try tauto.
    all: try (intros [] ?; discriminate).
    all: empty_co Ho Hf Hn Hb.
  - destruct ti, la; simpl.
    all: constructor; simpl; try discriminate; try tauto.
    all: try (intros [] ?; discriminate).
    all: empty_co Ho Hf Hn Hb.
Qed.

Lemma consistent_clock target s :
  consistent cfg s -> next_due target (timers s) = None ->
  consistent cfg (set_now (Z.max (now s) target) s).
Proof.
  intros [Ho Hl Hf Ha Hn Hb Ht Hth Hq] Hd.
  pose proof (next_due_None _ _ Hd) as Hlate.
  destruct s as [n i q dl ti mi la lt lc]. simpl in *.
  constructor; simpl; auto.
  - intros t Hin. specialize (Hn t Hin). specialize (Hlate t Hin). lia.
  - intros t Hin. specialize (Hb t Hin). lia.
Qed.

Lemma consistent_tick d s : consistent cfg s -> consistent cfg (tick cfg d s).
Proof.
  intros H. unfold tick.
  apply advance_ind with (P := consistent cfg);
    eauto using consistent_run_timer, consistent_clock.
Qed.

Lemma consistent_step s e : consistent cfg s -> consistent cfg (step cfg s e).
Proof.
  destruct e; simpl;
    auto using consistent_debounced, consistent_tick, consistent_cancel,
    consistent_flush.
Qed.

Lemma consistent_run es s : consistent cfg s -> consistent cfg (run cfg es s).
Proof.
  revert s. induction es as [|e es IH]; simpl; intros s H; [assumption|].
  apply IH. now apply consistent_step.
Qed.

Lemma reachable_consistent s : reachable cfg s -> consistent cfg s.
Proof.
  intros (start & es & ->). apply consistent_run, consistent_fresh.
Qed.

Lemma reachable_fresh start : reachable cfg (fresh start : State Arg Ctx).
Proof. exists start, []. reflexivity. Qed.

Lemma reachable_step s e : reachable cfg s -> reachable cfg (step cfg s e).
Proof.
  intros (start & es & ->). exists start, (es ++ [e]).
  unfold run. now rewrite fold_left_app.
Qed.

Lemma reachable_run es s : reachable cfg s -> reachable cfg (run cfg es s).
Proof.
  revert s. induction es as [|e es IH]; simpl; intros s H; [assumption|].
  apply IH. now apply reachable_step.
Qed.

(** *** The clock and the queue after time has passed *)

Lemma fire_now k s : now (fire cfg k s) = now s.
Proof.
  destruct s as [n i q dl ti mi la lt lc].
  destruct k; unfold fire, invokeFunc; simpl.
  - destruct mi, (negb (leading cfg)), la; reflexivity.
  - destruct ti, la; reflexivity.
Qed.

Lemma advance_now n target s :
  now (advance cfg n target s) = Z.max (now s) target.
Proof.
  revert s. induction n as [|n IH]; intros s; simpl; [reflexivity|].
  destruct (next_due target (timers s)) as [t|] eqn:E; [|reflexivity].
  rewrite IH. unfold run_timer. rewrite fire_now. simpl.
  apply next_due_Some in E. lia.
Qed.

Lemma tick_now d s : now (tick cfg d s) = Z.max (now s) (now s + d).
Proof. apply advance_now. Qed.

(** [advance] stops only when no queued timer is due. *)
Lemma advance_settled target n s :
  (length (timers s) <= n)%nat ->
  next_due target (timers (advance cfg n target s)) = None.
Proof.
  revert s. induction n as [|n IH]; intros s Hn; simpl.
  - destruct (timers s); [reflexivity|simpl in Hn; lia].
  - destruct (next_due target (timers s)) as [t|] eqn:E; [|exact E].
    apply IH. apply next_due_Some in E. destruct E as [Hin _].
    pose proof (run_timer_shrinks t s Hin). lia.
Qed.

Lemma tick_settled d s :
  forall t, In t (timers (tick cfg d s)) -> now s + d < due t.
Proof.
  apply next_due_None. unfold tick. now apply advance_settled.
Qed.

Lemma tick_no_timers d s :
  timers s = [] -> tick cfg d s = set_now (Z.max (now s) (now s + d)) s.
Proof. intros H. unfold tick. rewrite H. reflexivity. Qed.

(** *** After a timer has run, a cancel or a flush, nothing is queued *)

Lemma cancel_drains s : consistent cfg s -> timers (cancel s) = [].
Proof.
  intros [Ho Hl Hf Ha Hn Hb Ht Hth Hq].
  destruct s as [n i q dl ti mi la lt lc].
  unfold cancel, handle_of in *. simpl in *.
  destruct ti, mi; simpl; empty_co Ho Hf Hn Hb.
Qed.

Lemma flush_drains s : consistent cfg s -> timers (flush s) = [].
Proof.
  intros [Ho Hl Hf Ha Hn Hb Ht Hth Hq].
  destruct s as [n i q dl ti mi la lt lc].
  unfold flush, handle_of in *. simpl in *.
  destruct ti, mi, la; simpl; empty_co Ho Hf Hn Hb.
Qed.

Lemma run_timer_drains t s :
  consistent cfg s -> In t (timers s) -> timers (run_timer cfg t s) = [].
Proof.
  intros [Ho Hl Hf Ha Hn Hb Ht Hth Hq] Hin.
  pose proof (Ho t Hin) as Hown.
  destruct s as [n i q dl ti mi la lt lc].
  unfold run_timer, fire, handle_of in *. simpl in *.
  destruct (job t) eqn:Hjob; simpl in *; subst.
  - destruct mi, (leading cfg), la; simpl; empty_co Ho Hf Hn Hb.
  - destruct ti, la; simpl; empty_co Ho Hf Hn Hb.
Qed.

Lemma fire_resets k s :
  timeoutId (fire cfg k s) = None /\ maxTimeoutId (fire cfg k s) = None /\
  lastArgs (fire cfg k s) = None /\ lastCallTime (fire cfg k s) = None.
Proof.
  destruct s as [n i q dl ti mi la lt lc].
  destruct k; unfold fire, invokeFunc; simpl.
  - destruct mi, (leading cfg), la; simpl; auto.
  - destruct ti, la; simpl; auto.
Qed.

(** *** Bursts under the default options *)

Section Burst.
Hypothesis Hlead : leading cfg = false.
Hypothesis Htrail : trailing cfg = true.
Hypothesis Hmax : maxWait cfg = None.

Lemma call_starts_waiting this args s :
  consistent cfg s -> maxTimeoutId s = None ->
  waiting cfg (now s) this args (debounced cfg this args s) /\
  delivered (debounced cfg this args s) = delivered s /\
  now (debounced cfg this args s) = now s.
Proof.
  intros Hc Hmi. pose proof (co_owner _ _ Hc) as Ho.
  destruct s as [n i q dl ti mi la lt lc]. simpl in *. subst mi.
  unfold debounced, waiting, handle_of in *. simpl in *.
  rewrite Hlead, Htrail, Hmax, andb_false_r. simpl.
  assert (Hemp : match ti with Some p => clearTimeout p q | None => q end = []).
  { apply no_In_nil. intros t Ht. destruct ti as [p|].
    - apply In_clearTimeout in Ht. destruct Ht as (Ht & Hne).
      specialize (Ho t Ht). destruct (job t); simpl in Ho; congruence.
    - specialize (Ho t Ht). destruct (job t); discriminate. }
  destruct ti as [p|]; simpl; rewrite Hemp; simpl; repeat split;
    now exists i.
Qed.

Lemma call_keeps_waiting tl c a this args s :
  waiting cfg tl c a s ->
  waiting cfg (now s) this args (debounced cfg this args s) /\
  delivered (debounced cfg this args s) = delivered s /\
  now (debounced cfg this args s) = now s.
Proof.
  intros (id & Hq & Hti & Hmi & Hla & Hlt).
  destruct s as [n i q dl ti mi la lt lc]. simpl in *. subst.
  unfold debounced, waiting. simpl. rewrite Hlead, Htrail, Hmax.
  rewrite andb_false_r. simpl. rewrite Pos.eqb_refl. simpl.
  repeat split. now exists i.
Qed.

Lemma tick_keeps_waiting tl c a d s :
  waiting cfg tl c a s -> 0 <= d -> now s + d < tl + timer_delay false (wait cfg) ->
  waiting cfg tl c a (tick cfg d s) /\
  delivered (tick cfg d s) = delivered s /\
  now (tick cfg d s) = now s + d.
Proof.
  intros (id & Hq & Hti & Hmi & Hla & Hlt) Hd Hearly.
  destruct s as [n i q dl ti mi la lt lc]. simpl in *. subst.
  unfold tick, waiting. simpl. rewrite next_due_single. simpl.
  destruct (Z.leb_spec (tl + timer_delay false (wait cfg)) (n + d)); [lia|].
  simpl. repeat split; [now exists id | lia].
Qed.

Lemma tick_ends_waiting tl c a d s :
  waiting cfg tl c a s -> now s <= tl + timer_delay false (wait cfg) <= now s + d ->
  delivered (tick cfg d s) =
    mkDelivery (tl + timer_delay false (wait cfg)) c a :: delivered s /\
  idle (tick cfg d s).
Proof.
  intros (id & Hq & Hti & Hmi & Hla & Hlt) Hlate.
  destruct s as [n i q dl ti mi la lt lc]. simpl in *. subst.
  unfold tick, idle. simpl. rewrite next_due_single. simpl.
  destruct (Z.leb_spec (tl + timer_delay false (wait cfg)) (n + d)); [|lia].
  unfold run_timer, fire. simpl. rewrite Pos.eqb_refl, Hlead. simpl.
  repeat split. do 2 f_equal. lia.
Qed.

Lemma burst_keeps_waiting rest :
  0 <= wait cfg <= maxTimeout ->
  forall s c a acc,
    0 <= acc -> (acc = 0 \/ acc < wait cfg) ->
    waiting cfg (now s - acc) c a s ->
    within_wait (wait cfg) acc rest ->
    waiting cfg (now (run cfg rest s) - since_last acc rest)
            (fst (last_call (c, a) rest)) (snd (last_call (c, a) rest))
            (run cfg rest s) /\
    delivered (run cfg rest s) = delivered s /\
    0 <= since_last acc rest /\
    (since_last acc rest = 0 \/ since_last acc rest < wait cfg).
Proof.
  intros Hwait.
  induction rest as [|e rest IH]; intros s c a acc Hacc Hlt Hw Hb; simpl.
  - auto.
  - destruct e as [this args|d| |]; simpl in Hb; try contradiction.
    + destruct (call_keeps_waiting _ c a this args s Hw) as (Hw' & Hd' & Hn').
      specialize (IH (debounced cfg this args s) this args 0).
      rewrite Z.sub_0_r, Hn', Hd' in IH. apply IH; auto; lia.
    + destruct Hb as (Hd & Hsum & Hb).
      destruct (timer_delay_kept false (wait cfg) Hwait) as (Hkept & _).
      destruct (tick_keeps_waiting _ c a d s Hw Hd) as (Hw' & Hd' & Hn');
        [lia|].
      specialize (IH (tick cfg d s) c a (acc + d)).
      rewrite Hn', Hd' in IH. apply IH; auto; try lia.
      replace (now s + d - (acc + d)) with (now s - acc) by lia. exact Hw'.
Qed.

End Burst.

(** *** What each operation adds to the calls of [func] *)

Lemma debounced_delivered this args s :
  delivered (debounced cfg this args s) =
  if match lastCallTime s with None => true | Some _ => false end
     && leading cfg
  then mkDelivery (now s) this args :: delivered s
  else delivered s.
Proof.
  destruct s as [n i q dl ti mi la lt lc].
  unfold debounced. simpl.
  destruct (_ && _); simpl;
    destruct ti, (trailing cfg), (maxWait cfg), mi; reflexivity.
Qed.

Lemma debounced_now this args s : now (debounced cfg this args s) = now s.
Proof.
  destruct s as [n i q dl ti mi la lt lc].
  unfold debounced. simpl.
  destruct (_ && _); simpl;
    destruct ti, (trailing cfg), (maxWait cfg), mi; reflexivity.
Qed.

Lemma debounced_marks this args s :
  lastCallTime (debounced cfg this args s) = Some (now s).
Proof.
  destruct s as [n i q dl ti mi la lt lc].
  unfold debounced. simpl.
  destruct (_ && _); simpl;
    destruct ti, (trailing cfg), (maxWait cfg), mi; reflexivity.
Qed.

Lemma debounced_lastArgs this args s :
  lastArgs (debounced cfg this args s) =
  if match lastCallTime s with None => true | Some _ => false end
     && leading cfg
  then None else Some args.
Proof.
  destruct s as [n i q dl ti mi la lt lc].
  unfold debounced. simpl.
  destruct (_ && _); simpl;
    destruct ti, (trailing cfg), (maxWait cfg), mi; reflexivity.
Qed.

Lemma debounced_lastThis this args s :
  lastThis (debounced cfg this args s) =
  if match lastCallTime s with None => true | Some _ => false end
     && leading cfg
  then None else this.
Proof.
  destruct s as [n i q dl ti mi la lt lc].
  unfold debounced. simpl.
  destruct (_ && _); simpl;
    destruct ti, (trailing cfg), (maxWait cfg), mi; reflexivity.
Qed.

Lemma run_timer_delivered t s :
  delivered (run_timer cfg t s) =
  match lastArgs s with
  | Some a => mkDelivery (Z.max (now s) (due t)) (lastThis s) a :: delivered s
  | None => delivered s
  end.
Proof.
  destruct s as [n i q dl ti mi la lt lc].
  unfold run_timer, fire, invokeFunc. simpl.
  destruct (job t); simpl.
  - destruct mi, (leading cfg), la; reflexivity.
  - destruct ti, la; reflexivity.
Qed.

Lemma cancel_delivered s : delivered (cancel s) = delivered s.
Proof.
  destruct s as [n i q dl ti mi la lt lc].
  unfold cancel. simpl. destruct ti, mi; reflexivity.
Qed.

Lemma flush_delivered s :
  delivered (flush s) =
  match lastArgs s with
  | Some a => mkDelivery (now s) (lastThis s) a :: delivered s
  | None => delivered s
  end.
Proof.
  destruct s as [n i q dl ti mi la lt lc].
  unfold flush. simpl. destruct ti, mi, la; reflexivity.
Qed.

(** *** The max-wait timer across calls *)



(** *** Latency under [maxWait] *)







(** *** Where the arguments of a call of [func] come from *)

Lemma traced_weaken P P' base s :
  traced P base s -> incl P P' -> traced P' base s.
Proof.
  intros (Ha & new & Hd & Hn) Hi. split.
  - intros a E. apply Hi. now apply Ha.
  - exists new. split; [exact Hd|]. intros x Hx. apply Hi. now apply Hn.
Qed.

Lemma traced_call P base this args s :
  traced P base s ->
  traced (P ++ [(this, args)]) base (debounced cfg this args s).
Proof.
  intros (Ha & new & Hd & Hn).
  pose proof (debounced_delivered this args s) as Ed.
  pose proof (debounced_lastArgs this args s) as Ea.
  pose proof (debounced_lastThis this args s) as Et.
  destruct (_ && _); split.
  - intros a E. congruence.
  - exists (mkDelivery (now s) this args :: new). rewrite Ed, Hd.
    split; [reflexivity|]. intros x [<-|Hx]; apply in_or_app.
    + right. now left.
    + left. now apply Hn.
  - intros a E. rewrite Ea in E. injection E as <-. rewrite Et.
    apply in_or_app. right. now left.
  - exists new. rewrite Ed. split; [exact Hd|].
    intros x Hx. apply in_or_app. left. now apply Hn.
Qed.

Lemma traced_run_timer P base t s :
  traced P base s -> traced P base (run_timer cfg t s).
Proof.
  intros (Ha & new & Hd & Hn). split.
  - intros a E. unfold run_timer in E.
    destruct (fire_resets (job t)
                (set_timers (clearTimeout (tid t) (timers s))
                            (set_now (Z.max (now s) (due t)) s)))
      as (_ & _ & E' & _).
    congruence.
  - rewrite run_timer_delivered. destruct (lastArgs s) as [a|] eqn:E.
    + exists (mkDelivery (Z.max (now s) (due t)) (lastThis s) a :: new).
      rewrite Hd. split; [reflexivity|].
      intros x [<-|Hx]; [now apply Ha|now apply Hn].
    + now exists new.
Qed.

Lemma traced_tick P base d s :
  traced P base s -> traced P base (tick cfg d s).
Proof.
  intros H. unfold tick.
  apply advance_ind with (P := traced P base);
    [| |reflexivity|exact H]; clear H.
  - intros r t H _. now apply traced_run_timer.
  - intros r H _. exact H.
Qed.

Lemma cancel_clears s :
  timeoutId (cancel s) = None /\ maxTimeoutId (cancel s) = None /\
  lastArgs (cancel s) = None /\ lastThis (cancel s) = None /\
  lastCallTime (cancel s) = None.
Proof.
  destruct s as [n i q dl ti mi la lt lc].
  unfold cancel. simpl. destruct ti, mi; simpl; auto.
Qed.

Lemma flush_clears s :
  timeoutId (flush s) = None /\ maxTimeoutId (flush s) = None /\
  lastArgs (flush s) = None /\ lastCallTime (flush s) = lastCallTime s /\
  now (flush s) = now s.
Proof.
  destruct s as [n i q dl ti mi la lt lc].
  unfold flush. simpl. destruct ti, mi, la; simpl; auto.
Qed.

Lemma traced_cancel P base s : traced P base s -> traced P base (cancel s).
Proof.
  intros (Ha & new & Hd & Hn). split.
  - intros a E. destruct (cancel_clears s) as (_ & _ & E' & _). congruence.
  - exists new. now rewrite cancel_delivered.
Qed.

Lemma traced_flush P base s : traced P base s -> traced P base (flush s).
Proof.
  intros (Ha & new & Hd & Hn). split.
  - intros a E. destruct (flush_clears s) as (_ & _ & E' & _). congruence.
  - rewrite flush_delivered. destruct (lastArgs s) as [a|] eqn:E.
    + exists (mkDelivery (now s) (lastThis s) a :: new).
      rewrite Hd. split; [reflexivity|].
      intros x [<-|Hx]; [now apply Ha|now apply Hn].
    + now exists new.
Qed.

Lemma traced_run base es :
  forall P s, traced P base s -> traced (P ++ calls_of es) base (run cfg es s).
Proof.
  induction es as [|e es IH]; intros P s H; simpl.
  - now rewrite app_nil_r.
  - destruct e as [this args|d| |]; simpl.
    + replace (P ++ (this, args) :: calls_of es)
        with ((P ++ [(this, args)]) ++ calls_of es)
        by (now rewrite <- app_assoc).
      apply IH. now apply traced_call.
    + apply IH. now apply traced_tick.
    + apply IH. now apply traced_cancel.
    + apply IH. now apply traced_flush.
Qed.

(** *** Waiting after a cancel or a flush *)

Lemma drained_ticks ds :
  forall s, timers s = [] ->
            timers (run cfg (map Tick ds) s) = [] /\
            delivered (run cfg (map Tick ds) s) = delivered s.
Proof.
  induction ds as [|d ds IH]; intros s H; simpl; [auto|].
  rewrite (tick_no_timers d s H).
  destruct (IH (set_now (Z.max (now s) (now s + d)) s) H) as (Hq & Hd).
  auto.
Qed.

Lemma cancel_idle s : consistent cfg s -> idle (cancel s).
Proof.
  intros Hc. destruct (cancel_clears s) as (H1 & H2 & H3 & H4 & H5).
  unfold idle. auto 10 using cancel_drains.
Qed.

Lemma idle_unchanged s : idle s -> cancel s = s /\ flush s = s.
Proof.
  intros (Hq & Hti & Hmi & Hla & Hlt & Hlc).
  destruct s as [n i q dl ti mi la lt lc]. simpl in *. subst.
  split; reflexivity.
Qed.

Lemma cancel_twice s : cancel (cancel s) = cancel s.
Proof.
  destruct s as [n i q dl ti mi la lt lc].
  unfold cancel. simpl. destruct ti, mi; reflexivity.
Qed.

Lemma flush_twice s : flush (flush s) = flush s.
Proof.
  destruct s as [n i q dl ti mi la lt lc].
  unfold flush. simpl. destruct ti, mi, la; reflexivity.
Qed.



(** *** [pending] and the trailing timer *)

Lemma pending_scheduled s :
  consistent cfg s ->
  (pending s = true <-> exists t, In t (timers s) /\ job t = Trailing).
Proof.
  intros Hc. unfold pending. split.
  - destruct (timeoutId s) as [i|] eqn:E; [|discriminate]. intros _.
    destruct (co_live _ _ Hc Trailing i E) as (t & Hin & _ & Hj). eauto.
  - intros (t & Hin & Hj). pose proof (co_owner _ _ Hc t Hin) as Ho.
    rewrite Hj in Ho. simpl in Ho. now rewrite Ho.
Qed.

Lemma pending_after_call this args s :
  pending (debounced cfg this args s) =
  if trailing cfg then true else pending s.
Proof.
  destruct s as [n i q dl ti mi la lt lc].
  unfold debounced, pending. simpl.
  destruct (_ && _); simpl;
    destruct ti, (trailing cfg), (maxWait cfg), mi; reflexivity.
Qed.

Lemma run_timer_subset t s u :
  In u (timers (run_timer cfg t s)) -> In u (timers s).
Proof.
  destruct s as [n i q dl ti mi la lt lc].
  unfold run_timer, fire, invokeFunc. simpl.
  destruct (job t); simpl.
  - destruct mi, (leading cfg), la; simpl; intros H; timers_in; assumption.
  - destruct ti, la; simpl; intros H; timers_in; assumption.
Qed.

Lemma tick_subset d s u : In u (timers (tick cfg d s)) -> In u (timers s).
Proof.
  revert u. unfold tick.
  apply advance_ind
    with (P := fun s' => forall u, In u (timers s') -> In u (timers s));
    [| |reflexivity|auto].
  - intros r t H _ u Hu. eauto using run_timer_subset.
  - intros r H _ u Hu. auto.
Qed.

Lemma pending_after_wait d s :
  consistent cfg s -> Z.max 0 (wait cfg) <= d -> pending (tick cfg d s) = false.
Proof.
  intros Hc Hd.
  destruct (pending (tick cfg d s)) eqn:E; [|reflexivity].
  apply pending_scheduled in E; [|now apply consistent_tick].
  destruct E as (t & Hin & Hj).
  pose proof (tick_settled d s t Hin) as Hlate.
  apply tick_subset in Hin.
  pose proof (co_bound _ _ Hc t Hin) as Hb.
  rewrite Hj in Hb. simpl in Hb. lia.
Qed.

Lemma pending_after_timer t s :
  pending (run_timer cfg t s) = false.
Proof.
  unfold pending, run_timer.
  destruct (fire_resets (job t)
              (set_timers (clearTimeout (tid t) (timers s))
                          (set_now (Z.max (now s) (due t)) s)))
    as (E & _).
  now rewrite E.
Qed.

Lemma flush_lastThis s : consistent cfg s -> lastThis (flush s) = None.
Proof.
  intros Hc. pose proof (co_this _ _ Hc) as Ht.
  destruct s as [n i q dl ti mi la lt lc].
  unfold flush. simpl in *. destruct ti, mi, la; simpl; auto.
Qed.

Lemma marker_stays es :
  Forall call_or_flush es ->
  forall s, lastCallTime s <> None -> lastCallTime (run cfg es s) <> None.
Proof.
  induction 1 as [|e es He _ IH]; intros s H; simpl; [exact H|].
  apply IH. destruct e; simpl in *; try contradiction.
  - rewrite debounced_marks. discriminate.
  - destruct (flush_clears s) as (_ & _ & _ & E & _). congruence.
Qed.

Lemma no_leading_edge_while_marked this args s :
  lastCallTime s <> None ->
  delivered (debounced cfg this args s) = delivered s.
Proof.
  intros H. rewrite debounced_delivered.
  destruct (lastCallTime s); [reflexivity|congruence].
Qed.

Lemma cancel_now s : now (cancel s) = now s.
Proof.
  destruct s as [n i q dl ti mi la lt lc]. unfold cancel. simpl.
  destruct ti, mi; reflexivity.
Qed.

Lemma flush_call_returns outcome s :
  (forall a, lastArgs s = Some a -> outcome (lastThis s) a = None) ->
  flush_call outcome s = Normal (flush s).
Proof.
  destruct s as [n i q dl ti mi la lt lc]. simpl. intros H.
  unfold flush_call, flush, invokeFunc_call, invokeFunc.
  destruct ti, mi, la as [a|]; simpl; try reflexivity;
    rewrite (H a eq_refl); reflexivity.
Qed.

Lemma flush_call_throws outcome s msg :
  flush_call outcome s = Throw msg <->
  exists a, lastArgs s = Some a /\ outcome (lastThis s) a = Some msg.
Proof.
  destruct s as [n i q dl ti mi la lt lc]. simpl.
  unfold flush_call, invokeFunc_call.
  destruct ti, mi, la as [a|]; simpl;
    try (split; [discriminate|intros (a' & Ha & _); discriminate]);
    (destruct (outcome lt a) as [m|] eqn:E;
     [split; [intros [= <-]; eauto|intros (a' & [= <-] & Hm); congruence]
     |split; [discriminate|intros (a' & [= <-] & Hm); congruence]]).
Qed.

Lemma leading_edge_when_unmarked this args s :
  leading cfg = true -> lastCallTime s = None ->
  delivered (debounced cfg this args s) =
  mkDelivery (now s) this args :: delivered s.
Proof.
  intros Hl Hm. rewrite debounced_delivered, Hl, Hm. reflexivity.
Qed.

(** *** Without [maxWait] there is no max-wait timer *)

Lemma no_max_timer_tick d s :
  maxTimeoutId s = None -> maxTimeoutId (tick cfg d s) = None.
Proof.
  intros H. unfold tick.
  apply advance_ind with (P := fun s' => maxTimeoutId s' = None);
    [| |reflexivity|exact H].
  - intros r t _ _. unfold run_timer. apply fire_resets.
  - intros r Hr _. exact Hr.
Qed.

Lemma no_max_timer_run es :
  maxWait cfg = None ->
  forall s, maxTimeoutId s = None -> maxTimeoutId (run cfg es s) = None.
Proof.
  intros Hm. induction es as [|e es IH]; intros s H; simpl; [exact H|].
  apply IH. destruct e; cbn [step].
  - destruct s as [n i q dl ti mi la lt lc]. simpl in H. subst mi.
    unfold debounced. simpl. rewrite Hm.
    destruct (_ && _); simpl; destruct ti, (trailing cfg); reflexivity.
  - now apply no_max_timer_tick.
  - apply cancel_clears.
  - apply flush_clears.
Qed.

End Facts.

(** *** The scenarios of the package's test suite *)

Example test_delays_execution :
  delivered (run (defaults 100) [Call None ([] : list nat)]
                 (fresh (Ctx:=nat) 0)) = [] /\
  delivered (run (defaults 100) [Call None ([] : list nat); Tick 100]
                 (fresh (Ctx:=nat) 0)) = [mkDelivery 100 None []].
Proof. split; reflexivity. Qed.

Example test_cancel_prevents_execution :
  delivered (run (defaults 100) [Call None ([] : list nat); Cancel; Tick 100]
                 (fresh (Ctx:=nat) 0)) = [].
Proof. reflexivity. Qed.

Example test_flush_executes_immediately :
  delivered (run (defaults 100) [Call None ([] : list nat); Flush]
                 (fresh (Ctx:=nat) 0)) = [mkDelivery 0 None []].
Proof. reflexivity. Qed.

Example test_pending_returns_correct_state :
  pending (fresh (Arg:=nat) (Ctx:=nat) 0) = false /\
  pending (run (defaults 100) [Call None ([] : list nat)]
               (fresh (Ctx:=nat) 0)) = true /\
  pending (run (defaults 100) [Call None ([] : list nat); Tick 100]
               (fresh (Ctx:=nat) 0)) = false.
Proof. repeat split. Qed.

Example test_leading_option_fires_immediately :
  let cfg := mkConfig 100 true false None in
  delivered (run cfg [Call None ([] : list nat)] (fresh (Ctx:=nat) 0))
  = [mkDelivery 0 None []] /\
  delivered (run cfg [Call None ([] : list nat); Call None []; Tick 100]
                 (fresh (Ctx:=nat) 0))
  = [mkDelivery 0 None []].
Proof. split; reflexivity. Qed.

Example test_maxWait_ensures_execution :
  delivered (run (mkConfig 100 false true (Some 150))
                 [Call None ([] : list nat); Tick 50; Call None []; Tick 50;
                  Call None []; Tick 50]
                 (fresh (Ctx:=nat) 0))
  = [mkDelivery 150 None []].
Proof. reflexivity. Qed.

Example test_debounce_0ms :
  delivered (run (defaults 0) [Call None ([] : list nat)]
                 (fresh (Ctx:=nat) 0)) = [] /\
  delivered (run (defaults 0) [Call None ([] : list nat); Tick 1]
                 (fresh (Ctx:=nat) 0)) = [mkDelivery 0 None []].
Proof. split; reflexivity. Qed.

(** *** The properties of [debounce] *)

(** C1, as the code has it.  Under the default options (no leading edge,
    trailing edge, no [maxWait]) and a wait [w] that a timer can hold
    ([0 <= w <= maxTimeout]), a burst that starts in any reachable state
    (a call followed by [rest], in which every call comes strictly less
    than [w] ms after the previous one) calls [func] not at all while it
    lasts and for less than [w] ms after its last call, and exactly once,
    [w] ms after its last call and with [this] and the arguments of that
    call, however far the clock then moves. *)
Theorem burst_collapses {Arg Ctx : Type} (w : Z) (s : State Arg Ctx)
        (this : option Ctx) (args : list Arg) (rest : list (event Arg Ctx)) :
  0 <= w <= maxTimeout -> reachable (defaults w) s -> within_wait w 0 rest ->
  let cfg := defaults w in
  let s' := run cfg (Call this args :: rest) s in
  let e := since_last 0 rest in
  let last := last_call (this, args) rest in
  delivered s' = delivered s /\
  (forall d, 0 <= d -> e + d < w ->
             delivered (tick cfg d s') = delivered s) /\
  (forall d ds, w <= e + d ->
     delivered (run cfg (map Tick ds) (tick cfg d s')) =
       mkDelivery (now s' - e + w) (fst last) (snd last) :: delivered s).
Proof.
  intros Hw Hr Hrest cfg s' e last.
  assert (Hwc : wait cfg = w) by reflexivity.
  assert (Hwait : 0 <= wait cfg <= maxTimeout) by (rewrite Hwc; exact Hw).
  destruct (timer_delay_kept false (wait cfg) Hwait) as (Hkept & _).
  pose proof (reachable_consistent cfg s Hr) as Hc.
  assert (Hmi : maxTimeoutId s = None).
  { destruct Hr as (start & es & ->).
    now apply (no_max_timer_run cfg es eq_refl). }
  destruct (call_starts_waiting cfg eq_refl eq_refl eq_refl this args s Hc Hmi)
    as (Hwait0 & Hd & Hn).
  assert (Hwait1 : waiting cfg (now (debounced cfg this args s) - 0) this args
                           (debounced cfg this args s))
    by (rewrite Z.sub_0_r, Hn; exact Hwait0).
  destruct (burst_keeps_waiting cfg eq_refl eq_refl eq_refl rest Hwait
              (debounced cfg this args s) this args 0
              (Z.le_refl 0) (or_introl eq_refl) Hwait1 Hrest)
    as (Hw' & Hd' & He0 & He).
  change (run cfg rest (debounced cfg this args s)) with s' in Hw', Hd'.
  fold e last in Hw', He0, He.
  rewrite Hwc in He.
  split; [congruence|]. split.
  - intros d Hd0 Hearly.
    destruct (tick_keeps_waiting cfg _ _ _ d s' Hw' Hd0) as (_ & E & _).
    + rewrite Hkept, Hwc. lia.
    + congruence.
  - intros d ds Hlate.
    destruct (tick_ends_waiting cfg eq_refl _ _ _ d s' Hw') as (E & Hi).
    + rewrite Hkept, Hwc. lia.
    + destruct Hi as (Hq & _).
      destruct (drained_ticks cfg ds _ Hq) as (_ & E').
      rewrite E', E, Hkept, Hwc. congruence.
Qed.

Lemma burst_collapses_witness :
  delivered
    (run (defaults 100) (map Tick [1000; 1000])
       (tick (defaults 100) 100
          (run (defaults 100)
             [Call None [1%nat]; Tick 30; Call None [2%nat]; Tick 30;
              Call (Some 7%nat) [3%nat]]
             (run (defaults 100) [Call None [0%nat]; Tick 40; Flush; Tick 5]
                  (fresh 0))))) =
  [mkDelivery 205 (Some 7%nat) [3%nat]; mkDelivery 40 None [0%nat]].
Proof.
  assert (H0 : 0 <= 100 <= maxTimeout) by (unfold maxTimeout; lia).
  assert (H1 : reachable (defaults 100)
                 (run (defaults 100)
                      [Call None [0%nat]; Tick 40; Flush; Tick 5]
                      (fresh (Arg:=nat) (Ctx:=nat) 0)))
    by (eexists 0, _; reflexivity).
  assert (H2 : within_wait (Arg:=nat) (Ctx:=nat) 100 0
                 [Tick 30; Call None [2%nat]; Tick 30;
                  Call (Some 7%nat) [3%nat]])
    by (simpl; lia).
  destruct (burst_collapses 100 _ None [1%nat] _ H0 H1 H2)
    as (_ & _ & H).
  apply (H 100 [1000; 1000]). simpl. lia.
Defined.

(** C1 fails as stated.  A wait longer than the longest delay a timer keeps
    is accepted, and its timer runs 1 ms after the call: the delivery comes
    1 ms, not [wait] ms, after the call, and two calls 5 ms apart are both
    delivered.  And at a gap of exactly [wait] ms the timer of the first
    call runs before the second call: two deliveries. *)
Lemma burst_needs_a_wait_a_timer_can_hold :
  (let cfg := defaults 2147483648 in
   delivered (run cfg [Call None [1%nat]; Tick 1] (fresh (Ctx:=nat) 0))
   = [mkDelivery 1 None [1%nat]] /\
   delivered (run cfg [Call None [1%nat]; Tick 5; Call None [2%nat]; Tick 5]
                  (fresh (Ctx:=nat) 0))
   = [mkDelivery 6 None [2%nat]; mkDelivery 1 None [1%nat]]) /\
  (let cfg := defaults 100 in
   delivered (run cfg [Call None [1%nat]; Tick 100; Call None [2%nat];
                       Tick 100]
                  (fresh (Ctx:=nat) 0))
   = [mkDelivery 200 None [2%nat]; mkDelivery 100 None [1%nat]]).
Proof. repeat split. Qed.

(** C2, at the input where the code departs from it: with the leading edge
    enabled and the trailing edge disabled no timer is ever scheduled, so
    the marker [lastCallTime] set by the first call is never cleared: a call
    made a second after the first one starts a new burst and yet [func] is
    not called for it, neither at once nor later. *)
Theorem leading_only_fires_once :
  let cfg := mkConfig 100 true false None in
  delivered (run cfg [Call None [1%nat]; Tick 1000; Call None [2%nat]]
                 (fresh (Ctx:=nat) 0))
  = [mkDelivery 0 None [1%nat]] /\
  delivered (run cfg [Call None [1%nat]; Tick 1000; Call None [2%nat];
                      Tick 1000; Call None [3%nat]; Tick 1000]
                 (fresh (Ctx:=nat) 0))
  = [mkDelivery 0 None [1%nat]].
Proof. split; reflexivity. Qed.






(** C8, as the code has it.  In a reachable state [pending] is true exactly
    when a trailing timer is scheduled.  It is false on a new controller;
    true right after a call when the trailing edge is enabled; false right
    after a timer callback has run, hence once [wait] ms have passed
    without a call; and false right after [cancel] or [flush].  With the
    trailing edge disabled, whatever the caller goes on to do, no trailing
    timer is ever scheduled and [pending] stays false. *)
Theorem pending_tracks_trailing_timer {Arg Ctx : Type} (cfg : Config)
        (s : State Arg Ctx) :
  reachable cfg s ->
  (pending s = true <-> exists t, In t (timers s) /\ job t = Trailing) /\
  (forall start, pending (fresh (Arg:=Arg) (Ctx:=Ctx) start) = false) /\
  (forall this args,
      trailing cfg = true -> pending (debounced cfg this args s) = true) /\
  (forall t, pending (run_timer cfg t s) = false) /\
  (forall d, Z.max 0 (wait cfg) <= d -> pending (tick cfg d s) = false) /\
  pending (cancel s) = false /\
  pending (flush s) = false /\
  (trailing cfg = false ->
   forall es,
     pending (run cfg es s) = false /\
     forall t, In t (timers (run cfg es s)) -> job t <> Trailing).
Proof.
  intros Hr. pose proof (reachable_consistent cfg s Hr) as Hc.
  split; [now apply (pending_scheduled cfg)|].
  split; [reflexivity|].
  split; [intros this args Ht; now rewrite pending_after_call, Ht|].
  split; [intros t; apply pending_after_timer|].
  split; [intros d Hd; now apply pending_after_wait|].
  destruct (cancel_clears s) as (E1 & _).
  destruct (flush_clears s) as (E2 & _).
  unfold pending. rewrite E1, E2. repeat split.
  - apply (consistent_run cfg es) in Hc.
    now rewrite (co_trailing _ _ Hc H).
  - intros t Hin Hj. apply (consistent_run cfg es) in Hc.
    pose proof (co_owner _ _ Hc t Hin) as Ho.
    rewrite Hj in Ho. simpl in Ho.
    rewrite (co_trailing _ _ Hc H) in Ho. discriminate.
Qed.

Lemma pending_tracks_trailing_timer_witness :
  pending (debounced (defaults 100) None [1%nat] (fresh (Ctx:=nat) 0)) = true /\
  pending (tick (defaults 100) 100
             (debounced (defaults 100) None [1%nat] (fresh (Ctx:=nat) 0)))
  = false /\
  pending (run (mkConfig 100 true false (Some 150))
               [Tick 20; Call None [2%nat]]
               (run (mkConfig 100 true false (Some 150))
                    [Call None [1%nat]] (fresh (Ctx:=nat) 0)))
  = false.
Proof.
  split; [|split].
  - assert (Hr : reachable (defaults 100) (fresh (Arg:=nat) (Ctx:=nat) 0))
      by (exists 0, []; reflexivity).
    destruct (pending_tracks_trailing_timer (defaults 100) _ Hr)
      as (_ & _ & H & _).
    now apply H.
  - assert (Hr : reachable (defaults 100)
                   (debounced (defaults 100) None [1%nat] (fresh (Ctx:=nat) 0)))
      by (exists 0, [Call None [1%nat]]; reflexivity).
    destruct (pending_tracks_trailing_timer (defaults 100) _ Hr)
      as (_ & _ & _ & _ & H & _).
    apply H. simpl. lia.
  - assert (Hr : reachable (mkConfig 100 true false (Some 150))
                   (run (mkConfig 100 true false (Some 150))
                        [Call None [1%nat]] (fresh (Arg:=nat) (Ctx:=nat) 0)))
      by (eexists 0, _; reflexivity).
    destruct (pending_tracks_trailing_timer _ _ Hr)
      as (_ & _ & _ & _ & _ & _ & _ & H).
    apply (H eq_refl [Tick 20; Call None [2%nat]]).
Defined.

(** C8 fails as stated: with the trailing edge disabled [pending] is false
    right after a call; and with both edges enabled it is true right after
    the call has been delivered on the leading edge. *)
Lemma pending_after_call_depends_on_options :
  pending (debounced (mkConfig 100 false false None) None [1%nat]
                     (fresh (Ctx:=nat) 0)) = false /\
  (let s := debounced (mkConfig 100 true true None) None [1%nat]
                      (fresh (Ctx:=nat) 0) in
   delivered s = [mkDelivery 0 None [1%nat]] /\ pending s = true).
Proof. repeat split. Qed.

(** C10. [flush] clears both timer handles and the recorded arguments (and
    the recorded [this], in a reachable state) and keeps [lastCallTime].
    Hence, once a call has set that marker, after a [flush] and any further
    calls and flushes the marker is still set and a call delivers nothing
    on the leading edge, whatever the options.  [cancel] and both timer
    callbacks clear the marker, and with the marker clear and the leading
    edge enabled a call is delivered at once. *)
Theorem flush_keeps_burst_marker {Arg Ctx : Type} (cfg : Config)
        (s : State Arg Ctx) :
  (lastCallTime (flush s) = lastCallTime s /\
   timeoutId (flush s) = None /\ maxTimeoutId (flush s) = None /\
   lastArgs (flush s) = None /\
   (reachable cfg s -> lastThis (flush s) = None /\ timers (flush s) = [])) /\
  (lastCallTime s <> None ->
   forall es, Forall call_or_flush es ->
     lastCallTime (run cfg es (flush s)) <> None /\
     forall this args,
       delivered (debounced cfg this args (run cfg es (flush s)))
       = delivered (run cfg es (flush s))) /\
  (lastCallTime (cancel s) = None /\
   forall k, lastCallTime (fire cfg k s) = None) /\
  (leading cfg = true -> lastCallTime s = None ->
   forall this args,
     delivered (debounced cfg this args s)
     = mkDelivery (now s) this args :: delivered s).
Proof.
  destruct (flush_clears s) as (E1 & E2 & E3 & E4 & _).
  split; [|split; [|split]].
  - repeat split; auto.
    + now apply (flush_lastThis cfg), reachable_consistent.
    + now apply (flush_drains cfg), reachable_consistent.
  - intros Hm es Hes.
    assert (Hm' : lastCallTime (run cfg es (flush s)) <> None)
      by (apply marker_stays; congruence).
    split; [exact Hm'|].
    intros this args. now apply no_leading_edge_while_marked.
  - split; [apply cancel_clears|].
    intros k. apply fire_resets.
  - intros Hl Hm this args. now apply leading_edge_when_unmarked.
Qed.

Lemma flush_keeps_burst_marker_witness :
  let cfg := mkConfig 100 true true None in
  let s := run cfg [Call None [1%nat]; Tick 10; Call None [2%nat]]
               (fresh (Ctx:=nat) 0) in
  delivered (debounced cfg None [3%nat] (run cfg [Flush] (flush s)))
  = delivered (run cfg [Flush] (flush s)).
Proof.
  intros cfg s.
  destruct (flush_keeps_burst_marker cfg s) as (_ & H & _).
  assert (Hm : lastCallTime s <> None) by discriminate.
  assert (Hes : Forall (call_or_flush (Arg:=nat) (Ctx:=nat)) [Flush])
    by (repeat constructor).
  destruct (H Hm [Flush] Hes) as (_ & H').
  apply H'.
Defined.

End DebounceFacts.

(** ** throttle *)

Module ThrottleFacts.
Import Throttle.

Section Facts.
Context {Arg Ctx : Type}.
Variable cfg : Config.
Implicit Types (s r : State Arg Ctx) (t u : Timer Callback) (k : Callback).

(** *** One call and one timer callback, field by field *)

Lemma throttled_free this args s :
  inThrottle s = false ->
  throttled cfg this args s =
  mkState (now s) (Pos.succ (nextId s))
          (timers s ++ [mkTimer (nextId s)
                                (now s + timer_delay (duringTick s) (wait cfg))
                                Cooldown])
          (duringTick s)
          (mkDelivery (now s) this args :: delivered s)
          true None None (Some (nextId s)).
Proof.
  destruct s as [n i q dt dl it la lt ti]. simpl. intros ->. reflexivity.
Qed.

Lemma throttled_cooling this args s :
  inThrottle s = true ->
  throttled cfg this args s = set_lastThis this (set_lastArgs (Some args) s).
Proof.
  destruct s as [n i q dt dl it la lt ti]. simpl. intros ->. reflexivity.
Qed.

Lemma run_timer_recorded t s a :
  lastArgs s = Some a ->
  run_timer cfg t s =
  mkState (Z.max (now s) (due t)) (Pos.succ (nextId s))
          (clearTimeout (tid t) (timers s)
             ++ [mkTimer (nextId s)
                         (Z.max (now s) (due t) + timer_delay true (wait cfg))
                         Cooldown])
          false
          (mkDelivery (Z.max (now s) (due t)) (lastThis s) a :: delivered s)
          true None None (Some (nextId s)).
Proof.
  destruct s as [n i q dt dl it la lt ti]. simpl. intros ->.
  unfold run_timer. destruct (job t). reflexivity.
Qed.

Lemma run_timer_nothing t s :
  lastArgs s = None ->
  run_timer cfg t s =
  set_duringTick false
    (set_inThrottle false
       (set_timers (clearTimeout (tid t) (timers s))
                   (set_now (Z.max (now s) (due t)) s))).
Proof.
  destruct s as [n i q dt dl it la lt ti]. simpl. intros ->.
  unfold run_timer. destruct (job t). reflexivity.
Qed.

(** *** Rounds of [advance] *)

Lemma run_timer_rounds t s :
  In t (timers s) -> (rounds (run_timer cfg t s) < rounds s)%nat.
Proof.
  intros Hin. apply clearTimeout_shrinks in Hin.
  destruct (lastArgs s) as [a|] eqn:E.
  - rewrite (run_timer_recorded t s a E). unfold rounds. simpl.
    rewrite E, length_app. simpl. lia.
  - rewrite (run_timer_nothing t s E). unfold rounds. simpl.
    rewrite E. lia.
Qed.

Lemma throttle_advance_ind (P : State Arg Ctx -> Prop) target :
  (forall s t, P s -> next_due target (timers s) = Some t ->
               P (run_timer cfg t s)) ->
  (forall s, P s -> next_due target (timers s) = None ->
             P (set_now (Z.max (now s) target) s)) ->
  forall n s, (rounds s <= n)%nat -> P s -> P (advance cfg n target s).
Proof.
  intros Hrun Hclock. induction n as [|n IH]; intros s Hn HP; simpl.
  - apply Hclock; [assumption|].
    unfold rounds in Hn. destruct (timers s); [reflexivity|simpl in Hn; lia].
  - destruct (next_due target (timers s)) as [t|] eqn:E.
    + apply IH; [|now apply Hrun].
      apply next_due_Some in E. destruct E as [Hin _].
      pose proof (run_timer_rounds t s Hin). lia.
    + now apply Hclock.
Qed.

Lemma advance_due target n s t :
  next_due target (timers s) = Some t ->
  advance cfg (S n) target s = advance cfg n target (run_timer cfg t s).
Proof. intros H. simpl. now rewrite H. Qed.

Lemma throttle_advance_settled target n s :
  (rounds s <= n)%nat ->
  next_due target (timers (advance cfg n target s)) = None.
Proof.
  revert s. induction n as [|n IH]; intros s Hn; simpl.
  - unfold rounds in Hn. destruct (timers s); [reflexivity|simpl in Hn; lia].
  - destruct (next_due target (timers s)) as [t|] eqn:E; [|exact E].
    apply IH. apply next_due_Some in E. destruct E as [Hin _].
    pose proof (run_timer_rounds t s Hin). lia.
Qed.

Lemma throttle_tick_settled d s :
  forall t, In t (timers (tick cfg d s)) -> now s + d < due t.
Proof.
  apply next_due_None. unfold tick. now apply throttle_advance_settled.
Qed.

Lemma throttle_tick_no_timers d s :
  timers s = [] -> tick cfg d s = set_now (Z.max (now s) (now s + d)) s.
Proof.
  intros H. unfold tick, rounds. rewrite H. simpl.
  destruct (lastArgs s); simpl; rewrite ?H; reflexivity.
Qed.

(** *** The queue and the cooldown flag agree *)

Lemma throttle_consistent_fresh start : consistent cfg (fresh start : State Arg Ctx).
Proof. unfold consistent. simpl. auto. Qed.

Lemma consistent_throttled this args s :
  consistent cfg s -> consistent cfg (throttled cfg this args s).
Proof.
  unfold consistent. destruct (inThrottle s) eqn:E.
  - rewrite (throttled_cooling this args s E). simpl. now rewrite E.
  - rewrite (throttled_free this args s E). simpl.
    intros (Hdt & Hq & _). rewrite Hq, Hdt. simpl. split; [reflexivity|].
    pose proof (timer_delay_bounds false (wait cfg)).
    eexists _, _. repeat split; lia.
Qed.

Lemma throttle_consistent_cancel s : consistent cfg s -> consistent cfg (cancel s).
Proof.
  unfold consistent. destruct s as [n i q dt dl it la lt ti]. simpl.
  destruct it.
  - intros (-> & id & D & -> & -> & _). simpl. rewrite Pos.eqb_refl.
    simpl. auto.
  - intros (-> & -> & _). destruct ti; simpl; auto.
Qed.

Lemma throttle_consistent_run_timer target t s :
  consistent cfg s -> next_due target (timers s) = Some t ->
  consistent cfg (run_timer cfg t s).
Proof.
  intros Hc Hd. apply next_due_Some in Hd. destruct Hd as (Hin & _).
  unfold consistent in *. destruct Hc as (Hdt & Hc).
  destruct (inThrottle s) eqn:E.
  - destruct Hc as (id & D & Hq & Hti & Hid & Hn).
    rewrite Hq in Hin. destruct Hin as [<-|[]].
    destruct (lastArgs s) as [a|] eqn:Ea.
    + rewrite (run_timer_recorded _ s a Ea). simpl.
      rewrite Hq. simpl. rewrite Pos.eqb_refl. simpl.
      split; [reflexivity|].
      pose proof (timer_delay_bounds true (wait cfg)).
      eexists _, _. repeat split; lia.
    + rewrite (run_timer_nothing _ s Ea). simpl.
      rewrite Hq. simpl. rewrite Pos.eqb_refl. simpl. auto.
  - destruct Hc as (Hq & _). rewrite Hq in Hin. contradiction.
Qed.

Lemma throttle_consistent_clock target s :
  consistent cfg s -> next_due target (timers s) = None ->
  consistent cfg (set_now (Z.max (now s) target) s).
Proof.
  intros Hc Hd. pose proof (next_due_None _ _ Hd) as Hlate.
  unfold consistent in *. simpl. destruct Hc as (Hdt & Hc).
  split; [exact Hdt|]. destruct (inThrottle s); [|exact Hc].
  destruct Hc as (id & D & Hq & Hti & Hid & Hn).
  exists id, D. repeat split; try assumption; try lia.
  rewrite Hq in Hlate. specialize (Hlate _ (or_introl eq_refl)).
  simpl in Hlate. lia.
Qed.

Lemma throttle_consistent_tick d s : consistent cfg s -> consistent cfg (tick cfg d s).
Proof.
  intros H. unfold tick.
  apply throttle_advance_ind with (P := consistent cfg);
    eauto using throttle_consistent_run_timer, throttle_consistent_clock.
Qed.

Lemma throttle_consistent_step s e : consistent cfg s -> consistent cfg (step cfg s e).
Proof.
  destruct e; simpl;
    auto using consistent_throttled, throttle_consistent_tick, throttle_consistent_cancel.
Qed.

Lemma throttle_consistent_run es s : consistent cfg s -> consistent cfg (run cfg es s).
Proof.
  revert s. induction es as [|e es IH]; simpl; intros s H; [assumption|].
  apply IH. now apply throttle_consistent_step.
Qed.

Lemma throttle_reachable_consistent s : reachable cfg s -> consistent cfg s.
Proof.
  intros (start & es & ->). apply throttle_consistent_run, throttle_consistent_fresh.
Qed.


Lemma throttle_reachable_step s e : reachable cfg s -> reachable cfg (step cfg s e).
Proof.
  intros (start & es & ->). exists start, (es ++ [e]).
  unfold run. now rewrite fold_left_app.
Qed.

(** *** Without a recorded call, waiting delivers nothing *)

Lemma advance_nothing target n :
  forall s, lastArgs s = None ->
            delivered (advance cfg n target s) = delivered s.
Proof.
  induction n as [|n IH]; intros s Ha; simpl; [reflexivity|].
  destruct (next_due target (timers s)) as [t|]; [|reflexivity].
  rewrite IH; rewrite (run_timer_nothing t s Ha); auto.
Qed.

Lemma throttle_drained_ticks ds :
  forall s, timers s = [] ->
            timers (run cfg (map Tick ds) s) = [] /\
            delivered (run cfg (map Tick ds) s) = delivered s.
Proof.
  induction ds as [|d ds IH]; intros s H; simpl; [auto|].
  rewrite (throttle_tick_no_timers d s H).
  destruct (IH (set_now (Z.max (now s) (now s + d)) s) H) as (Hq & Hd).
  auto.
Qed.

Lemma throttle_cancel_idle s : consistent cfg s -> idle (cancel s).
Proof.
  unfold consistent, idle. destruct s as [n i q dt dl it la lt ti]. simpl.
  destruct it.
  - intros (_ & id & D & -> & -> & _). simpl. rewrite Pos.eqb_refl.
    simpl. auto.
  - intros (_ & -> & _). destruct ti; simpl; auto.
Qed.

Lemma throttle_cancel_delivered s : delivered (cancel s) = delivered s.
Proof.
  destruct s as [n i q dt dl it la lt ti]. unfold cancel. simpl.
  destruct ti; reflexivity.
Qed.

Lemma throttle_cancel_now s : now (cancel s) = now s.
Proof.
  destruct s as [n i q dt dl it la lt ti]. unfold cancel. simpl.
  destruct ti; reflexivity.
Qed.

Lemma cancel_lastArgs s : lastArgs (cancel s) = None.
Proof.
  destruct s as [n i q dt dl it la lt ti]. unfold cancel. simpl.
  destruct ti; reflexivity.
Qed.

Lemma throttle_cancel_twice s : cancel (cancel s) = cancel s.
Proof.
  destruct s as [n i q dt dl it la lt ti]. unfold cancel. simpl.
  destruct ti; reflexivity.
Qed.

Lemma throttle_idle_unchanged s : idle s -> cancel s = s.
Proof.
  intros (Hq & Hit & Hla & Hlt & Hti).
  destruct s as [n i q dt dl it la lt ti]. simpl in *. subst. reflexivity.
Qed.

(** *** Outside a cooldown [cancel] changes the handle variable only *)

Lemma tidy_throttled this args s : tidy (throttled cfg this args s).
Proof.
  unfold tidy. destruct (inThrottle s) eqn:E.
  - rewrite (throttled_cooling this args s E). simpl. discriminate.
  - rewrite (throttled_free this args s E). reflexivity.
Qed.

Lemma tidy_run_timer t s : tidy s -> tidy (run_timer cfg t s).
Proof.
  unfold tidy. intros H. destruct (lastArgs s) as [a|] eqn:E.
  - rewrite (run_timer_recorded t s a E). reflexivity.
  - rewrite (run_timer_nothing t s E). simpl. auto.
Qed.

Lemma tidy_tick d s : tidy s -> tidy (tick cfg d s).
Proof.
  intros H. unfold tick.
  apply throttle_advance_ind with (P := tidy); [| |reflexivity|exact H].
  - intros r t Hr _. now apply tidy_run_timer.
  - intros r Hr _. exact Hr.
Qed.

Lemma tidy_cancel s : tidy (cancel s).
Proof.
  unfold tidy. destruct s as [n i q dt dl it la lt ti]. unfold cancel. simpl.
  destruct ti; reflexivity.
Qed.

Lemma tidy_run es s : tidy s -> tidy (run cfg es s).
Proof.
  revert s. induction es as [|e es IH]; simpl; intros s H; [exact H|].
  apply IH. destruct e; simpl;
    auto using tidy_throttled, tidy_tick, tidy_cancel.
Qed.

Lemma cancel_outside_cooldown s :
  consistent cfg s -> tidy s -> inThrottle s = false ->
  cancel s = set_timeoutId None s.
Proof.
  unfold consistent, tidy. destruct s as [n i q dt dl it la lt ti].
  simpl. intros (_ & Hc) Ht ->. destruct Hc as (-> & ->).
  rewrite (Ht eq_refl). unfold cancel. simpl. destruct ti; reflexivity.
Qed.

Lemma handle_unobserved es :
  forall s, consistent cfg s -> tidy s -> inThrottle s = false ->
            run cfg es (set_timeoutId None s) = run cfg es s \/
            run cfg es (set_timeoutId None s)
            = set_timeoutId None (run cfg es s).
Proof.
  induction es as [|e es IH]; intros s Hc Ht Hf; simpl; [now right|].
  destruct e as [this args|d|]; simpl.
  - left. f_equal.
    rewrite !throttled_free by exact Hf. reflexivity.
  - assert (Hq : timers s = [])
      by (unfold consistent in Hc; rewrite Hf in Hc; apply Hc).
    rewrite (throttle_tick_no_timers d s Hq).
    rewrite (throttle_tick_no_timers d (set_timeoutId None s) Hq).
    apply (IH (set_now (Z.max (now s) (now s + d)) s)).
    + rewrite <- (throttle_tick_no_timers d s Hq).
      now apply throttle_consistent_tick.
    + exact Ht.
    + exact Hf.
  - left. f_equal.
    rewrite (cancel_outside_cooldown s Hc Ht Hf).
    assert (Hc' : consistent cfg (set_timeoutId None s))
      by (unfold consistent in *; simpl; now rewrite Hf in *).
    exact (cancel_outside_cooldown (set_timeoutId None s) Hc' Ht Hf).
Qed.

Lemma cancel_unobserved es s :
  consistent cfg s -> tidy s -> inThrottle s = false ->
  observe (run cfg es (cancel s)) = observe (run cfg es s).
Proof.
  intros Hc Ht Hf. rewrite (cancel_outside_cooldown s Hc Ht Hf).
  destruct (handle_unobserved es s Hc Ht Hf) as [->| ->]; reflexivity.
Qed.

Lemma throttle_reachable_tidy s : reachable cfg s -> tidy s.
Proof.
  intros (start & es & ->). apply tidy_run. intros _. reflexivity.
Qed.

(** *** Where the arguments of a call of [func] come from *)

Lemma throttle_traced_call P base this args s :
  traced P base s ->
  traced (P ++ [(this, args)]) base (throttled cfg this args s).
Proof.
  intros (Ha & new & Hd & Hn). destruct (inThrottle s) eqn:E.
  - rewrite (throttled_cooling this args s E). split; simpl.
    + intros a [= <-]. apply in_or_app. right. now left.
    + exists new. split; [exact Hd|].
      intros x Hx. apply in_or_app. left. now apply Hn.
  - rewrite (throttled_free this args s E). split; simpl.
    + discriminate.
    + exists (mkDelivery (now s) this args :: new). rewrite Hd.
      split; [reflexivity|]. intros x [<-|Hx]; apply in_or_app.
      * right. now left.
      * left. now apply Hn.
Qed.

Lemma throttle_traced_run_timer P base t s :
  traced P base s -> traced P base (run_timer cfg t s).
Proof.
  intros (Ha & new & Hd & Hn). destruct (lastArgs s) as [a|] eqn:E.
  - rewrite (run_timer_recorded t s a E). split; simpl.
    + discriminate.
    + exists (mkDelivery (Z.max (now s) (due t)) (lastThis s) a :: new).
      rewrite Hd. split; [reflexivity|].
      intros x [<-|Hx]; [now apply Ha|now apply Hn].
  - rewrite (run_timer_nothing t s E). split; simpl.
    + congruence.
    + now exists new.
Qed.

Lemma throttle_traced_tick P base d s :
  traced P base s -> traced P base (tick cfg d s).
Proof.
  intros H. unfold tick.
  apply throttle_advance_ind with (P := traced P base);
    [| |reflexivity|exact H]; clear H.
  - intros r t H _. now apply throttle_traced_run_timer.
  - intros r H _. exact H.
Qed.

Lemma throttle_traced_cancel P base s : traced P base s -> traced P base (cancel s).
Proof.
  intros (Ha & new & Hd & Hn). split.
  - rewrite cancel_lastArgs. discriminate.
  - exists new. now rewrite throttle_cancel_delivered.
Qed.

Lemma throttle_traced_run base es :
  forall P s, traced P base s -> traced (P ++ calls_of es) base (run cfg es s).
Proof.
  induction es as [|e es IH]; intros P s H; simpl.
  - now rewrite app_nil_r.
  - destruct e as [this args|d|]; simpl.
    + replace (P ++ (this, args) :: calls_of es)
        with ((P ++ [(this, args)]) ++ calls_of es)
        by (now rewrite <- app_assoc).
      apply IH. now apply throttle_traced_call.
    + apply IH. now apply throttle_traced_tick.
    + apply IH. now apply throttle_traced_cancel.
Qed.

(** *** Calls of [func] are [wait] ms apart *)

Section Paced.
Hypothesis Hwait : wait cfg <= maxTimeout.

Lemma paced_fresh start : paced cfg (fresh start : State Arg Ctx).
Proof. unfold paced. simpl. auto. Qed.

Lemma timer_delay_covers b : wait cfg <= timer_delay b (wait cfg).
Proof.
  clear - Hwait. unfold timer_delay, maxTimeout in *.
  destruct (Z.gtb_spec (wait cfg) 2147483647); [lia|].
  destruct (Z.eqb_spec (Z.max 0 (wait cfg)) 0); destruct b; simpl; lia.
Qed.

Lemma paced_throttled this args s :
  consistent cfg s -> paced cfg s -> paced cfg (throttled cfg this args s).
Proof.
  unfold consistent, paced. destruct (inThrottle s) eqn:E.
  - rewrite (throttled_cooling this args s E). simpl. now rewrite E.
  - rewrite (throttled_free this args s E). simpl.
    intros (_ & Hq & _) (Hs & Hx). rewrite Hq. simpl. split.
    + destruct (delivered s) as [|y l]; simpl in *; auto.
    + intros t [<-|[]]. simpl.
      pose proof (timer_delay_covers (duringTick s)). lia.
Qed.

Lemma paced_run_timer target t s :
  consistent cfg s -> paced cfg s -> next_due target (timers s) = Some t ->
  paced cfg (run_timer cfg t s).
Proof.
  intros Hc (Hs & Hx) Hd. apply next_due_Some in Hd. destruct Hd as (Hin & _).
  unfold consistent in Hc. destruct Hc as (_ & Hc). unfold paced.
  destruct (inThrottle s) eqn:E.
  - destruct Hc as (id & D & Hq & Hti & Hid & Hn).
    destruct (delivered s) as [|x l] eqn:Ed; [discriminate|].
    specialize (Hx t Hin).
    rewrite Hq in Hin. destruct Hin as [<-|[]]. simpl in Hx.
    destruct (lastArgs s) as [a|] eqn:Ea.
    + rewrite (run_timer_recorded _ s a Ea). simpl.
      rewrite Hq, Ed. simpl. rewrite Pos.eqb_refl. simpl.
      split; [split; [lia|exact Hs]|].
      intros t [<-|[]]. simpl. pose proof (timer_delay_covers true). lia.
    + rewrite (run_timer_nothing _ s Ea). simpl. rewrite Ed. simpl.
      split; [exact Hs|lia].
  - destruct Hc as (Hq & _). rewrite Hq in Hin. contradiction.
Qed.

Lemma paced_clock target s :
  paced cfg s -> paced cfg (set_now (Z.max (now s) target) s).
Proof.
  clear Hwait.
  unfold paced. simpl. intros (Hs & Hx). split; [exact Hs|].
  destruct (delivered s); [exact Hx|].
  destruct (inThrottle s); [exact Hx|lia].
Qed.

Lemma paced_tick d s :
  consistent cfg s /\ paced cfg s ->
  consistent cfg (tick cfg d s) /\ paced cfg (tick cfg d s).
Proof.
  intros H. unfold tick.
  apply throttle_advance_ind
    with (P := fun s' => consistent cfg s' /\ paced cfg s');
    [| |reflexivity|exact H]; clear H.
  - intros r t (Hc & Hp) Hd.
    eauto using throttle_consistent_run_timer, paced_run_timer.
  - intros r (Hc & Hp) Hd. eauto using throttle_consistent_clock, paced_clock.
Qed.

Lemma paced_run es :
  Forall call_or_tick es ->
  forall s, consistent cfg s /\ paced cfg s ->
            consistent cfg (run cfg es s) /\ paced cfg (run cfg es s).
Proof.
  induction 1 as [|e es He _ IH]; intros s H; simpl; [exact H|].
  apply IH. destruct e; simpl in *; try contradiction.
  - destruct H. split; [now apply consistent_throttled|].
    now apply paced_throttled.
  - now apply paced_tick.
Qed.

End Paced.

End Facts.

(** *** The scenarios of the package's test suite *)

Example test_fires_immediately :
  delivered (run (mkConfig 100) [Call None ([] : list nat)]
                 (fresh (Ctx:=nat) 0)) = [mkDelivery 0 None []].
Proof. reflexivity. Qed.

Example test_limits_subsequent_calls :
  delivered (run (mkConfig 100)
                 [Call None [1%nat]; Call None [2%nat]; Call None [3%nat]]
                 (fresh (Ctx:=nat) 0))
  = [mkDelivery 0 None [1%nat]] /\
  delivered (run (mkConfig 100)
                 [Call None [1%nat]; Call None [2%nat]; Call None [3%nat];
                  Tick 100]
                 (fresh (Ctx:=nat) 0))
  = [mkDelivery 100 None [3%nat]; mkDelivery 0 None [1%nat]].
Proof. split; reflexivity. Qed.

Example test_cancel_prevents_trailing_call :
  delivered (run (mkConfig 100)
                 [Call None [1%nat]; Call None [2%nat]; Cancel; Tick 100]
                 (fresh (Ctx:=nat) 0))
  = [mkDelivery 0 None [1%nat]].
Proof. reflexivity. Qed.

Example test_throttle_0ms :
  delivered (run (mkConfig 0)
                 [Call None [1%nat]; Call None [2%nat]; Call None [3%nat]]
                 (fresh (Ctx:=nat) 0))
  = [mkDelivery 0 None [1%nat]] /\
  delivered (run (mkConfig 0)
                 [Call None [1%nat]; Call None [2%nat]; Call None [3%nat];
                  Tick 1]
                 (fresh (Ctx:=nat) 0))
  = [mkDelivery 0 None [3%nat]; mkDelivery 0 None [1%nat]].
Proof. split; reflexivity. Qed.

(** *** The properties of [throttle] *)

(** C3, as the code has it.  In a reachable state of a throttled function whose
    wait [w] is one a timer can hold, [0 <= w <= 2^31 - 1]: outside a
    cooldown a call calls [func] at once with its own [this] and arguments
    and schedules the end of the cooldown [w] ms later; during a cooldown
    a call only records its [this] and arguments over whatever was
    recorded; when the cooldown timer is due with a call recorded, waiting
    calls [func] exactly once more, at the deadline, with the recorded
    [this] and arguments, and that call starts a new cooldown of
    [max 1 w] ms (a timer set from inside a timer callback lasts at least
    1 ms); as long as the caller only calls and waits, two consecutive
    calls of [func] are at least [w] ms apart; and [cancel] ends the
    window, so that the next call calls [func] at once. *)
Theorem throttle_once_per_window {Arg Ctx : Type} (cfg : Config)
        (s : State Arg Ctx) :
  0 <= wait cfg <= maxTimeout ->
  reachable cfg s ->
  (inThrottle s = false ->
   forall this args,
     let s' := throttled cfg this args s in
     delivered s' = mkDelivery (now s) this args :: delivered s /\
     inThrottle s' = true /\ lastArgs s' = None /\
     timers s' = [mkTimer (nextId s) (now s + wait cfg) Cooldown]) /\
  (inThrottle s = true ->
   forall this args,
     let s' := throttled cfg this args s in
     delivered s' = delivered s /\ timers s' = timers s /\
     inThrottle s' = true /\
     lastArgs s' = Some args /\ lastThis s' = this) /\
  (forall a t,
      lastArgs s = Some a -> In t (timers s) ->
      (forall d, due t <= now s + d ->
                 delivered (tick cfg d s)
                 = mkDelivery (due t) (lastThis s) a :: delivered s) /\
      inThrottle (run_timer cfg t s) = true /\
      lastArgs (run_timer cfg t s) = None /\
      timers (run_timer cfg t s)
      = [mkTimer (nextId s) (due t + Z.max 1 (wait cfg)) Cooldown]) /\
  (forall start es,
     Forall call_or_tick es ->
     spaced (wait cfg)
            (delivered (run cfg es (fresh (Arg:=Arg) (Ctx:=Ctx) start)))) /\
  (forall this args,
     delivered (throttled cfg this args (cancel s))
     = mkDelivery (now s) this args :: delivered s).
Proof.
  intros Hw Hr. pose proof (throttle_reachable_consistent cfg s Hr) as Hc.
  destruct (timer_delay_kept false (wait cfg) Hw) as (Hkeep & Hkept & _).
  split; [|split; [|split; [|split]]].
  - intros E this args s'. unfold s'.
    rewrite (throttled_free cfg this args s E). simpl.
    unfold consistent in Hc. rewrite E in Hc.
    destruct Hc as (-> & -> & _). rewrite Hkeep. auto.
  - intros E this args s'. unfold s'.
    rewrite (throttled_cooling cfg this args s E). simpl. auto.
  - intros a t Ha Hin.
    unfold consistent in Hc. destruct Hc as (_ & Hc).
    destruct (inThrottle s) eqn:E.
    + destruct Hc as (id & D & Hq & Hti & Hid & Hn).
      pose proof Hin as Hin'. rewrite Hq in Hin'.
      destruct Hin' as [<-|[]]. cbn [due].
      assert (Hmax : Z.max (now s) D = D) by lia.
      split; [|rewrite (run_timer_recorded cfg _ s a Ha); simpl;
               rewrite Hq, Hmax, Hkept; simpl; rewrite Pos.eqb_refl; auto].
      intros d Hd. unfold tick.
      assert (Hr3 : rounds s = 3%nat)
        by (unfold rounds; rewrite Hq, Ha; reflexivity).
      rewrite Hr3.
      assert (Hnext : next_due (now s + d) (timers s)
                      = Some (mkTimer id D Cooldown)).
      { rewrite Hq, next_due_single. simpl.
        destruct (Z.leb_spec D (now s + d)); [reflexivity|lia]. }
      rewrite (advance_due cfg _ _ _ _ Hnext).
      rewrite advance_nothing;
        rewrite (run_timer_recorded cfg _ s a Ha); simpl; [|reflexivity].
      now rewrite Hmax.
    + destruct Hc as (Hq & _). rewrite Hq in Hin. contradiction.
  - intros start es Hes.
    apply (paced_run cfg (proj2 Hw) es Hes (fresh start)).
    split; [apply throttle_consistent_fresh|apply paced_fresh].
  - intros this args.
    destruct (throttle_cancel_idle cfg s Hc) as (_ & E & _).
    rewrite (throttled_free cfg this args _ E). cbn [delivered].
    now rewrite throttle_cancel_delivered, throttle_cancel_now.
Qed.

Lemma throttle_once_per_window_witness :
  let cfg := mkConfig 100 in
  let s := run cfg [Call None [1%nat]; Tick 10; Call None [2%nat]; Tick 10;
                    Call None [3%nat]; Tick 70; Call (Some 5%nat) [4%nat]]
               (fresh (Ctx:=nat) 0) in
  delivered (tick cfg 10 s)
  = [mkDelivery 100 (Some 5%nat) [4%nat]; mkDelivery 0 None [1%nat]] /\
  spaced 100
         (delivered
            (run cfg [Call None [1%nat]; Tick 10; Call None [2%nat]; Tick 10;
                      Call None [3%nat]; Tick 70; Call (Some 5%nat) [4%nat];
                      Tick 500; Call None [5%nat]]
                 (fresh (Ctx:=nat) 0))) /\
  delivered (throttled cfg None [6%nat] (cancel s))
  = [mkDelivery 90 None [6%nat]; mkDelivery 0 None [1%nat]].
Proof.
  intros cfg s.
  assert (Hw : 0 <= wait cfg <= maxTimeout)
    by (unfold maxTimeout; simpl; lia).
  assert (Hr : reachable cfg s) by (eexists 0, _; reflexivity).
  destruct (throttle_once_per_window cfg s Hw Hr) as (_ & _ & Hc & Hd & Hx).
  split; [|split].
  - destruct (Hc [4%nat] (mkTimer 1%positive 100 Cooldown) eq_refl
                 (or_introl eq_refl)) as (H & _).
    apply (H 10). simpl. lia.
  - apply (Hd 0
              [Call None [1%nat]; Tick 10; Call None [2%nat]; Tick 10;
               Call None [3%nat]; Tick 70; Call (Some 5%nat) [4%nat];
               Tick 500; Call None [5%nat]]).
    repeat constructor.
  - exact (Hx None [6%nat]).
Defined.

(** C3, as first stated, fails in three ways.  With wait 100, a call right
    after [cancel] calls [func] again in the same millisecond as the call
    before it.  With wait [2^31] the timer lasts 1 ms, so that [func] is
    called at 0 and at 1.  With wait 0 the cooldown that a trailing call
    starts lasts 1 ms and not 0: a call made once that trailing call is
    over is still held back. *)
Lemma throttle_window_is_not_unconditional :
  delivered (run (mkConfig 100)
                 [Call None [1%nat]; Cancel; Call None [2%nat]]
                 (fresh (Ctx:=nat) 0))
  = [mkDelivery 0 None [2%nat]; mkDelivery 0 None [1%nat]] /\
  ~ spaced 100 (delivered (run (mkConfig 100)
                               [Call None [1%nat]; Cancel; Call None [2%nat]]
                               (fresh (Ctx:=nat) 0))) /\
  delivered (run (mkConfig 2147483648)
                 [Call None [1%nat]; Call None [2%nat]; Tick 1]
                 (fresh (Ctx:=nat) 0))
  = [mkDelivery 1 None [2%nat]; mkDelivery 0 None [1%nat]] /\
  (let s := run (mkConfig 0)
                [Call None [1%nat]; Call None [2%nat]; Tick 0]
                (fresh (Ctx:=nat) 0) in
   delivered s = [mkDelivery 0 None [2%nat]; mkDelivery 0 None [1%nat]] /\
   timers s = [mkTimer 2%positive 1 Cooldown] /\
   delivered (throttled (mkConfig 0) None [3%nat] s) = delivered s).
Proof.
  split; [vm_compute; reflexivity|split; [|split; [vm_compute; reflexivity|]]].
  - vm_compute. intros (H & _). apply H. reflexivity.
  - vm_compute. repeat split; reflexivity.
Qed.

End ThrottleFacts.

(** ** Properties shared by the two controllers *)

(** C5. In a reachable state of a debounced or of a throttled function,
    [cancel] leaves no timer in the platform's queue and nothing recorded;
    it calls [func] for nothing; however long one then waits [func] is not
    called; and whatever the caller does afterwards, every later call of
    [func] has the [this] and arguments of a call made after the cancel. *)
Theorem cancel_suppresses_delivery {Arg Ctx : Type} :
  (forall (cfg : Debounce.Config) (s : Debounce.State Arg Ctx),
      Debounce.reachable cfg s ->
      Debounce.timers (Debounce.cancel s) = [] /\
      Debounce.idle (Debounce.cancel s) /\
      Debounce.delivered (Debounce.cancel s) = Debounce.delivered s /\
      (forall ds,
          Debounce.delivered
            (Debounce.run cfg (map Debounce.Tick ds) (Debounce.cancel s))
          = Debounce.delivered s) /\
      (forall es,
          Debounce.traced (Debounce.calls_of es) (Debounce.delivered s)
                          (Debounce.run cfg es (Debounce.cancel s)))) /\
  (forall (cfg : Throttle.Config) (s : Throttle.State Arg Ctx),
      Throttle.reachable cfg s ->
      Throttle.timers (Throttle.cancel s) = [] /\
      Throttle.idle (Throttle.cancel s) /\
      Throttle.delivered (Throttle.cancel s) = Throttle.delivered s /\
      (forall ds,
          Throttle.delivered
            (Throttle.run cfg (map Throttle.Tick ds) (Throttle.cancel s))
          = Throttle.delivered s) /\
      (forall es,
          Throttle.traced (Throttle.calls_of es) (Throttle.delivered s)
                          (Throttle.run cfg es (Throttle.cancel s)))).
Proof.
  split.
  - intros cfg s Hr.
    pose proof (DebounceFacts.reachable_consistent cfg s Hr) as Hc.
    pose proof (DebounceFacts.cancel_drains cfg s Hc) as Hq.
    pose proof (DebounceFacts.cancel_delivered s) as Hd.
    split; [exact Hq|].
    split; [now apply (DebounceFacts.cancel_idle cfg)|].
    split; [exact Hd|].
    split.
    + intros ds.
      destruct (DebounceFacts.drained_ticks cfg ds _ Hq) as (_ & E).
      congruence.
    + intros es.
      apply (DebounceFacts.traced_run cfg (Debounce.delivered s) es []).
      split.
      * destruct (DebounceFacts.cancel_clears s) as (_ & _ & E & _).
        intros a Ha. congruence.
      * exists []. split; [now rewrite Hd|]. intros x [].
  - intros cfg s Hr.
    pose proof (ThrottleFacts.throttle_reachable_consistent cfg s Hr) as Hc.
    pose proof (ThrottleFacts.throttle_cancel_idle cfg s Hc) as Hi.
    pose proof (ThrottleFacts.throttle_cancel_delivered s) as Hd.
    assert (Hq : Throttle.timers (Throttle.cancel s) = []) by apply Hi.
    split; [exact Hq|].
    split; [exact Hi|].
    split; [exact Hd|].
    split.
    + intros ds.
      destruct (ThrottleFacts.throttle_drained_ticks cfg ds _ Hq) as (_ & E).
      congruence.
    + intros es.
      apply (ThrottleFacts.throttle_traced_run cfg (Throttle.delivered s) es []).
      split.
      * rewrite ThrottleFacts.cancel_lastArgs. discriminate.
      * exists []. split; [now rewrite Hd|]. intros x [].
Qed.

Lemma cancel_suppresses_delivery_witness :
  Debounce.delivered
    (Debounce.run (Debounce.defaults 0) (map Debounce.Tick [0; 100; 100000])
       (Debounce.cancel
          (Debounce.run (Debounce.defaults 0) [Debounce.Call None [1%nat]]
                        (Debounce.fresh (Ctx:=nat) 0)))) = [] /\
  Throttle.delivered
    (Throttle.run (Throttle.mkConfig 100) (map Throttle.Tick [100; 100000])
       (Throttle.cancel
          (Throttle.run (Throttle.mkConfig 100)
             [Throttle.Call None [1%nat]; Throttle.Call None [2%nat]]
             (Throttle.fresh (Ctx:=nat) 0))))
  = [mkDelivery 0 None [1%nat]].
Proof.
  destruct (@cancel_suppresses_delivery nat nat) as (HD & HT).
  split.
  - assert (Hr : Debounce.reachable (Debounce.defaults 0)
                   (Debounce.run (Debounce.defaults 0)
                      [Debounce.Call None [1%nat]]
                      (Debounce.fresh (Ctx:=nat) 0)))
      by (eexists 0, _; reflexivity).
    destruct (HD _ _ Hr) as (_ & _ & _ & H & _).
    apply (H [0; 100; 100000]).
  - assert (Hr : Throttle.reachable (Throttle.mkConfig 100)
                   (Throttle.run (Throttle.mkConfig 100)
                      [Throttle.Call None [1%nat]; Throttle.Call None [2%nat]]
                      (Throttle.fresh (Ctx:=nat) 0)))
      by (eexists 0, _; reflexivity).
    destruct (HT _ _ Hr) as (_ & _ & _ & H & _).
    apply (H [100; 100000]).
Defined.

(** C7, as the code has it.  Neither constructor checks [wait]: for every
    value, negative ones included, construction completes normally and the
    closure keeps the value as it was given, neither rejected nor clamped;
    the first call then hands that value to [setTimeout] as it is. *)
Theorem construction_accepts_any_wait (w : Z) :
  (forall options,
      exists cfg, Debounce.debounce w options = Normal cfg /\
                  Debounce.wait cfg = w) /\
  Debounce.debounce w Debounce.no_options = Normal (Debounce.defaults w) /\
  Throttle.throttle w = Normal (Throttle.mkConfig w) /\
  (forall (start : Z) (this : option nat) (args : list nat),
      Debounce.timers
        (Debounce.debounced (Debounce.defaults w) this args
                            (Debounce.fresh start))
      = setTimeout Debounce.Trailing w start 1 [] /\
      Throttle.timers
        (Throttle.throttled (Throttle.mkConfig w) this args
                            (Throttle.fresh start))
      = setTimeout Throttle.Cooldown w start 1 []).
Proof.
  split; [|repeat split].
  intros options. eexists. split; reflexivity.
Qed.

(** C7 fails as stated: a negative wait is accepted by both constructors. *)
Lemma negative_wait_is_accepted :
  Debounce.debounce (-5) Debounce.no_options
  = Normal (Debounce.mkConfig (-5) false true None) /\
  Throttle.throttle (-5) = Normal (Throttle.mkConfig (-5)) /\
  (forall msg, Debounce.debounce (-5) Debounce.no_options <> Throw msg) /\
  (forall msg, Throttle.throttle (-5) <> Throw msg).
Proof. repeat split; discriminate. Qed.

(** C9, as the code has it.  [cancel] and [flush] are idempotent in every
    state, and on an idle debounced or throttled controller (nothing
    recorded, nothing scheduled, no burst or cooldown under way) each
    leaves the state exactly as it was.  [cancel] never throws; [flush]
    throws exactly when a call is recorded on which [func] throws, hence
    never when nothing is recorded.  On a throttled function outside a
    cooldown, whether new, cancelled or with its cooldown over, [cancel]
    changes nothing that the caller or the platform can tell, whatever
    the caller goes on to do.  Whether or not a call is recorded,
    [cancel] clears the burst marker of a debounced function, so that
    with the leading edge the next call is delivered at once, and ends
    the cooldown of a throttled function, so that the next call is
    delivered at once. *)
Theorem cancel_flush_idempotent {Arg Ctx : Type} :
  (forall s : Debounce.State Arg Ctx,
      Debounce.cancel (Debounce.cancel s) = Debounce.cancel s /\
      Debounce.flush (Debounce.flush s) = Debounce.flush s /\
      (Debounce.idle s ->
       Debounce.cancel s = s /\ Debounce.flush s = s)) /\
  (forall s : Throttle.State Arg Ctx,
      Throttle.cancel (Throttle.cancel s) = Throttle.cancel s /\
      (Throttle.idle s -> Throttle.cancel s = s)) /\
  (forall (outcome : option Ctx -> list Arg -> option String.string)
          (s : Debounce.State Arg Ctx),
      Debounce.cancel_call s = Normal (Debounce.cancel s) /\
      (forall msg,
          Debounce.flush_call outcome s = Throw msg <->
          exists a, Debounce.lastArgs s = Some a /\
                    outcome (Debounce.lastThis s) a = Some msg) /\
      ((forall a, Debounce.lastArgs s = Some a ->
                  outcome (Debounce.lastThis s) a = None) ->
       Debounce.flush_call outcome s = Normal (Debounce.flush s))) /\
  (forall s : Throttle.State Arg Ctx,
      Throttle.cancel_call s = Normal (Throttle.cancel s)) /\
  (forall (cfg : Throttle.Config) (s : Throttle.State Arg Ctx),
      Throttle.reachable cfg s -> Throttle.inThrottle s = false ->
      forall es,
        Throttle.observe (Throttle.run cfg es (Throttle.cancel s))
        = Throttle.observe (Throttle.run cfg es s)) /\
  (forall (cfg : Debounce.Config) (s : Debounce.State Arg Ctx),
      Debounce.lastCallTime (Debounce.cancel s) = None /\
      (Debounce.leading cfg = true ->
       forall this args,
         Debounce.delivered
           (Debounce.debounced cfg this args (Debounce.cancel s))
         = mkDelivery (Debounce.now s) this args :: Debounce.delivered s)) /\
  (forall (cfg : Throttle.Config) (s : Throttle.State Arg Ctx),
      Throttle.reachable cfg s ->
      Throttle.inThrottle (Throttle.cancel s) = false /\
      Throttle.timers (Throttle.cancel s) = [] /\
      forall this args,
        Throttle.delivered
          (Throttle.throttled cfg this args (Throttle.cancel s))
        = mkDelivery (Throttle.now s) this args :: Throttle.delivered s).
Proof.
  split; [|split; [|split; [|split; [|split; [|split]]]]].
  - intros s.
    split; [apply DebounceFacts.cancel_twice|].
    split; [apply DebounceFacts.flush_twice|].
    apply DebounceFacts.idle_unchanged.
  - intros s.
    split; [apply ThrottleFacts.throttle_cancel_twice|].
    apply ThrottleFacts.throttle_idle_unchanged.
  - intros outcome s. split; [reflexivity|]. split.
    + intros msg. apply DebounceFacts.flush_call_throws.
    + apply DebounceFacts.flush_call_returns.
  - reflexivity.
  - intros cfg s Hr Hf es.
    apply ThrottleFacts.cancel_unobserved; [| |exact Hf].
    + now apply ThrottleFacts.throttle_reachable_consistent.
    + now apply (ThrottleFacts.throttle_reachable_tidy cfg).
  - intros cfg s.
    destruct (DebounceFacts.cancel_clears s) as (_ & _ & _ & _ & Hm).
    split; [exact Hm|]. intros Hl this args.
    rewrite (DebounceFacts.leading_edge_when_unmarked cfg this args _ Hl Hm).
    now rewrite DebounceFacts.cancel_now, DebounceFacts.cancel_delivered.
  - intros cfg s Hr.
    pose proof (ThrottleFacts.throttle_reachable_consistent cfg s Hr) as Hc.
    destruct (ThrottleFacts.throttle_cancel_idle cfg s Hc) as (Hq & E & _).
    split; [exact E|]. split; [exact Hq|]. intros this args.
    rewrite (ThrottleFacts.throttled_free cfg this args _ E).
    cbn [Throttle.delivered].
    now rewrite ThrottleFacts.throttle_cancel_delivered,
                ThrottleFacts.throttle_cancel_now.
Qed.

Lemma cancel_flush_idempotent_witness :
  (let s := Debounce.run (Debounce.defaults 100)
                         [Debounce.Call None [1%nat]; Debounce.Tick 100]
                         (Debounce.fresh (Ctx:=nat) 0) in
   Debounce.cancel s = s /\ Debounce.flush s = s) /\
  (let cfg := Throttle.mkConfig 100 in
   let s := Throttle.run cfg [Throttle.Call None [1%nat]; Throttle.Tick 100]
                         (Throttle.fresh (Ctx:=nat) 0) in
   Throttle.observe
     (Throttle.run cfg [Throttle.Call None [2%nat]; Throttle.Tick 30;
                        Throttle.Call None [3%nat]; Throttle.Tick 500]
                   (Throttle.cancel s))
   = Throttle.observe
       (Throttle.run cfg [Throttle.Call None [2%nat]; Throttle.Tick 30;
                          Throttle.Call None [3%nat]; Throttle.Tick 500]
                     s)) /\
  (let cfg := Throttle.mkConfig 100 in
   let s := Throttle.run cfg [Throttle.Call None [1%nat]; Throttle.Tick 30]
                         (Throttle.fresh (Ctx:=nat) 0) in
   Throttle.delivered (Throttle.throttled cfg None [2%nat] (Throttle.cancel s))
   = mkDelivery (Throttle.now s) None [2%nat] :: Throttle.delivered s) /\
  Debounce.flush_call (fun _ _ => None)
    (Debounce.run (Debounce.defaults 100) [Debounce.Call None [1%nat]]
                  (Debounce.fresh (Ctx:=nat) 0))
  = Normal (Debounce.flush
              (Debounce.run (Debounce.defaults 100) [Debounce.Call None [1%nat]]
                            (Debounce.fresh (Ctx:=nat) 0))).
Proof.
  destruct (@cancel_flush_idempotent nat nat)
    as (HD & _ & HF & _ & HO & _ & HT).
  split; [|split; [|split]].
  - intros s. destruct (HD s) as (_ & _ & H). apply H.
    repeat split; reflexivity.
  - intros cfg s. apply (HO cfg s).
    + eexists 0, _. reflexivity.
    + reflexivity.
  - intros cfg s.
    assert (Hr : Throttle.reachable cfg s) by (eexists 0, _; reflexivity).
    destruct (HT cfg s Hr) as (_ & _ & H). apply H.
  - destruct (HF (fun _ _ => None)
                 (Debounce.run (Debounce.defaults 100)
                               [Debounce.Call None [1%nat]]
                               (Debounce.fresh (Ctx:=nat) 0)))
      as (_ & _ & H).
    apply H. reflexivity.
Defined.

(** C9 fails as stated in two ways.  With no call recorded, [cancel] still
    has an effect that the caller can see: on a throttled function it ends
    the cooldown, so the next call is delivered instead of being held
    back; on a debounced function with the leading edge only it clears the
    burst marker, so the next call is delivered instead of being dropped.
    And [flush] throws when [func] throws on the recorded call. *)
Lemma cancel_is_visible_and_flush_may_throw :
  (let cfg := Throttle.mkConfig 100 in
   let s := Throttle.run cfg [Throttle.Call None [1%nat]]
                         (Throttle.fresh (Ctx:=nat) 0) in
   Throttle.lastArgs s = None /\
   Throttle.delivered (Throttle.run cfg [Throttle.Call None [2%nat]] s)
   = [mkDelivery 0 None [1%nat]] /\
   Throttle.delivered
     (Throttle.run cfg [Throttle.Call None [2%nat]] (Throttle.cancel s))
   = [mkDelivery 0 None [2%nat]; mkDelivery 0 None [1%nat]]) /\
  (let cfg := Debounce.mkConfig 100 true false None in
   let s := Debounce.run cfg [Debounce.Call None [1%nat]]
                         (Debounce.fresh (Ctx:=nat) 0) in
   Debounce.lastArgs s = None /\ Debounce.pending s = false /\
   Debounce.delivered (Debounce.run cfg [Debounce.Call None [2%nat]] s)
   = [mkDelivery 0 None [1%nat]] /\
   Debounce.delivered
     (Debounce.run cfg [Debounce.Call None [2%nat]] (Debounce.cancel s))
   = [mkDelivery 0 None [2%nat]; mkDelivery 0 None [1%nat]]) /\
  (forall msg,
      Debounce.flush_call (fun _ _ => Some msg)
        (Debounce.run (Debounce.defaults 100) [Debounce.Call None [1%nat]]
                      (Debounce.fresh (Ctx:=nat) 0))
      = Throw msg).
Proof. repeat split. Qed.

(** * Further properties *)

(** ** debounce *)

Module DebounceMore.
Import Debounce DebounceFacts.

Section Facts.
Context {Arg Ctx : Type}.
Variable cfg : Config.
Implicit Types (s r : State Arg Ctx) (t u : Timer Callback) (k : Callback).

(** *** The deadline of the trailing timer *)

Lemma punctual_fresh start : punctual cfg (fresh start : State Arg Ctx).
Proof. intros t []. Qed.

Lemma punctual_drained s : timers s = [] -> punctual cfg s.
Proof. intros H t Hin. rewrite H in Hin. contradiction. Qed.

Lemma punctual_debounced this args s :
  consistent cfg s -> punctual cfg (debounced cfg this args s).
Proof.
  intros Hc t Hin Hj.
  pose proof (co_owner _ _ Hc) as Ho.
  pose proof (co_trailing _ _ Hc) as Ht.
  exists (now s). rewrite debounced_marks, debounced_now.
  split; [reflexivity|]. split; [lia|].
  destruct s as [n i q dl ti mi la lt lc].
  unfold debounced, handle_of in *. simpl in *.
  destruct (_ && _); simpl in *;
    destruct ti as [p|], (trailing cfg), (maxWait cfg), mi; simpl in *;
    repeat (apply In_setTimeout in Hin; destruct Hin as [Hin|Hin]);
    try apply In_clearTimeout in Hin;
    try (subst t; simpl in *; first [reflexivity|discriminate]);
    try (destruct Hin as [Hin Hne]);
    try (specialize (Ho t Hin); rewrite Hj in Ho; simpl in Ho; congruence);
    try (specialize (Ht eq_refl); discriminate).
Qed.

Lemma punctual_clock target s :
  punctual cfg s -> punctual cfg (set_now (Z.max (now s) target) s).
Proof.
  intros H t Hin Hj. destruct (H t Hin Hj) as (tl & E & Hle & Hd).
  exists tl. simpl. repeat split; auto. lia.
Qed.

Lemma punctual_tick d s :
  consistent cfg s /\ punctual cfg s ->
  consistent cfg (tick cfg d s) /\ punctual cfg (tick cfg d s).
Proof.
  intros H. unfold tick.
  apply advance_ind
    with (P := fun s' => consistent cfg s' /\ punctual cfg s');
    [| |reflexivity|exact H]; clear H.
  - intros r t (Hc & Hp) Hd. split; [eapply consistent_run_timer; eauto|].
    apply punctual_drained. apply run_timer_drains; [exact Hc|].
    now apply next_due_Some in Hd.
  - intros r (Hc & Hp) Hd.
    split; [now apply consistent_clock|now apply punctual_clock].
Qed.

Lemma punctual_run es :
  forall s, consistent cfg s /\ punctual cfg s ->
            consistent cfg (run cfg es s) /\ punctual cfg (run cfg es s).
Proof.
  induction es as [|e es IH]; intros s H; simpl; [exact H|].
  apply IH. destruct H as (Hc & Hp). destruct e; simpl.
  - split; [now apply consistent_debounced|now apply punctual_debounced].
  - now apply punctual_tick.
  - split; [now apply consistent_cancel|].
    apply punctual_drained. now apply (cancel_drains cfg).
  - split; [now apply consistent_flush|].
    apply punctual_drained. now apply (flush_drains cfg).
Qed.


(** *** Handles are not shared *)

Lemma distinct_clearTimeout (q : list (Timer Callback)) i :
  NoDup (map tid q) -> NoDup (map tid (clearTimeout i q)).
Proof.
  unfold clearTimeout.
  induction q as [|t q IH]; simpl; intros H; [constructor|].
  inversion H as [|? ? Hfresh Hrest]; subst.
  destruct (negb (tid t =? i)%positive); simpl; [|auto].
  constructor; [|auto].
  intros Hin. apply Hfresh. apply in_map_iff in Hin.
  destruct Hin as (u & E & Hu). apply filter_In in Hu.
  apply in_map_iff. exists u. tauto.
Qed.

Lemma handle_names_one_timer (q : list (Timer Callback)) t u :
  NoDup (map tid q) -> In t q -> In u q -> tid t = tid u -> t = u.
Proof.
  induction q as [|v q IH]; simpl; intros H Ht Hu E; [contradiction|].
  inversion H as [|? ? Hfresh Hrest]; subst.
  destruct Ht as [<-|Ht], Hu as [<-|Hu]; auto.
  - exfalso. apply Hfresh. rewrite E. now apply in_map.
  - exfalso. apply Hfresh. rewrite <- E. now apply in_map.
Qed.

Lemma distinct_setTimeout (q : list (Timer Callback)) k delay n i :
  NoDup (map tid q) -> (forall t, In t q -> (tid t < i)%positive) ->
  NoDup (map tid (setTimeout k delay n i q)).
Proof.
  intros Hd Hf. unfold setTimeout, schedule. rewrite map_app. simpl.
  apply NoDup_rev in Hd. rewrite <- (rev_involutive (map tid q ++ [i])).
  apply NoDup_rev. rewrite rev_app_distr. simpl.
  constructor; [|exact Hd].
  intros Hin. apply in_rev, in_map_iff in Hin.
  destruct Hin as (t & E & Ht). specialize (Hf t Ht). lia.
Qed.

Lemma distinct_debounced this args s :
  consistent cfg s -> distinct_handles s ->
  distinct_handles (debounced cfg this args s).
Proof.
  intros Hc Hd. pose proof (co_fresh _ _ Hc) as Hf.
  destruct s as [n i q dl ti mi la lt lc].
  unfold distinct_handles, debounced in *. simpl in *.
  assert (Hq : forall p t, In t (clearTimeout p q) -> (tid t < i)%positive)
    by (intros p t Ht; apply In_clearTimeout in Ht; apply Hf; tauto).
  destruct (_ && _); simpl;
    destruct ti as [p|], (trailing cfg), (maxWait cfg), mi; simpl;
    repeat first
      [ assumption
      | apply distinct_clearTimeout
      | apply distinct_setTimeout;
        [|intros t Ht;
          repeat (apply In_setTimeout in Ht; destruct Ht as [Ht|Ht]);
          try (subst t; simpl; lia);
          first [specialize (Hq _ _ Ht)|specialize (Hf _ Ht)]; lia] ].
Qed.

Lemma distinct_drained s : timers s = [] -> distinct_handles s.
Proof. unfold distinct_handles. intros ->. constructor. Qed.

Lemma distinct_tick d s :
  consistent cfg s /\ distinct_handles s ->
  consistent cfg (tick cfg d s) /\ distinct_handles (tick cfg d s).
Proof.
  intros H. unfold tick.
  apply advance_ind
    with (P := fun s' => consistent cfg s' /\ distinct_handles s');
    [| |reflexivity|exact H]; clear H.
  - intros r t (Hc & Hp) Hd. split; [eapply consistent_run_timer; eauto|].
    apply distinct_drained. apply run_timer_drains; [exact Hc|].
    now apply next_due_Some in Hd.
  - intros r (Hc & Hp) Hd. split; [now apply consistent_clock|exact Hp].
Qed.

Lemma distinct_run es :
  forall s, consistent cfg s /\ distinct_handles s ->
            consistent cfg (run cfg es s) /\ distinct_handles (run cfg es s).
Proof.
  induction es as [|e es IH]; intros s H; simpl; [exact H|].
  apply IH. destruct H as (Hc & Hp). destruct e; simpl.
  - split; [now apply consistent_debounced|now apply distinct_debounced].
  - now apply distinct_tick.
  - split; [now apply consistent_cancel|].
    apply distinct_drained. now apply (cancel_drains cfg).
  - split; [now apply consistent_flush|].
    apply distinct_drained. now apply (flush_drains cfg).
Qed.

(** *** A recorded call has its trailing timer *)

Lemma recorded_scheduled_tick d s :
  (lastArgs s <> None -> timeoutId s <> None) ->
  lastArgs (tick cfg d s) <> None -> timeoutId (tick cfg d s) <> None.
Proof.
  intros H. unfold tick.
  apply advance_ind
    with (P := fun s' => lastArgs s' <> None -> timeoutId s' <> None);
    [| |reflexivity|exact H]; clear H.
  - intros r t _ _ Ha. exfalso. apply Ha. unfold run_timer.
    apply fire_resets.
  - intros r H _. exact H.
Qed.

Lemma recorded_scheduled_run es :
  trailing cfg = true ->
  forall s, (lastArgs s <> None -> timeoutId s <> None) ->
            lastArgs (run cfg es s) <> None ->
            timeoutId (run cfg es s) <> None.
Proof.
  intros Ht. induction es as [|e es IH]; intros s H; simpl; [exact H|].
  apply IH. destruct e; simpl.
  - intros _. pose proof (pending_after_call cfg this args s) as E.
    rewrite Ht in E. unfold pending in E.
    destruct (timeoutId (debounced cfg this args s)); [discriminate|].
    discriminate.
  - now apply recorded_scheduled_tick.
  - intros Ha. exfalso. apply Ha.
    first [reflexivity|apply cancel_clears].
  - intros Ha. exfalso. apply Ha.
    first [reflexivity|apply flush_clears].
Qed.

Lemma next_due_exists (q : list (Timer Callback)) target t :
  In t q -> due t <= target ->
  exists u, next_due target q = Some u.
Proof.
  intros Hin Hd. destruct (next_due target q) as [u|] eqn:E; [eauto|].
  pose proof (next_due_None _ _ E t Hin). lia.
Qed.

Lemma advance_drained n target s :
  timers s = [] -> advance cfg n target s = set_now (Z.max (now s) target) s.
Proof. intros H. destruct n; simpl; [reflexivity|]. now rewrite H. Qed.

(** *** Neither trailing edge nor [maxWait]: no timer at all *)

Section Timerless.
Hypothesis Htrail : trailing cfg = false.
Hypothesis Hmax : maxWait cfg = None.

Lemma timerless_step e s :
  timers s = [] /\ timeoutId s = None /\ maxTimeoutId s = None ->
  timers (step cfg s e) = [] /\ timeoutId (step cfg s e) = None /\
  maxTimeoutId (step cfg s e) = None.
Proof.
  intros (Hq & Hti & Hmi). destruct e; simpl.
  - destruct s as [n i q dl ti mi la lt lc]. simpl in *. subst.
    unfold debounced. simpl. rewrite Htrail, Hmax.
    destruct (_ && _); simpl; auto.
  - rewrite (tick_no_timers cfg d s Hq). simpl. auto.
  - destruct s as [n i q dl ti mi la lt lc]. simpl in *. subst.
    unfold cancel. simpl. auto.
  - destruct s as [n i q dl ti mi la lt lc]. simpl in *. subst.
    unfold flush. simpl. destruct la; simpl; auto.
Qed.

Lemma timerless_run es :
  forall s, timers s = [] /\ timeoutId s = None /\ maxTimeoutId s = None ->
            timers (run cfg es s) = [] /\ timeoutId (run cfg es s) = None /\
            maxTimeoutId (run cfg es s) = None.
Proof.
  induction es as [|e es IH]; intros s H; simpl; [exact H|].
  apply IH. now apply timerless_step.
Qed.

Lemma silent_run es :
  leading cfg = false -> Forall not_flush es ->
  forall s, timers s = [] /\ timeoutId s = None /\ maxTimeoutId s = None ->
            delivered (run cfg es s) = delivered s.
Proof.
  intros Hl. induction 1 as [|e es He _ IH]; intros s H; simpl; [reflexivity|].
  rewrite IH by now apply timerless_step.
  destruct e; simpl in *; try contradiction.
  - rewrite debounced_delivered, Hl, andb_false_r. reflexivity.
  - destruct H as (Hq & _). now rewrite (tick_no_timers cfg d s Hq).
  - apply cancel_delivered.
Qed.

Lemma marked_run es :
  Forall call_or_tick es ->
  forall s, timers s = [] /\ timeoutId s = None /\ maxTimeoutId s = None ->
            lastCallTime s <> None ->
            delivered (run cfg es s) = delivered s.
Proof.
  induction 1 as [|e es He _ IH]; intros s H Hm; simpl; [reflexivity|].
  destruct e; simpl in *; try contradiction.
  - rewrite IH.
    + now apply no_leading_edge_while_marked.
    + now apply (timerless_step (Call this args)).
    + rewrite debounced_marks. discriminate.
  - destruct H as (Hq & Hr). rewrite (tick_no_timers cfg d s Hq).
    rewrite IH; simpl; auto.
Qed.

End Timerless.


(** *** Bursts with both edges enabled *)

Section BothEdges.
Hypothesis Hlead : leading cfg = true.
Hypothesis Htrail : trailing cfg = true.
Hypothesis Hmax : maxWait cfg = None.

Lemma call_opens_burst this args s :
  idle s ->
  holding cfg (now s) None (debounced cfg this args s) /\
  delivered (debounced cfg this args s)
  = mkDelivery (now s) this args :: delivered s /\
  now (debounced cfg this args s) = now s.
Proof.
  intros (Hq & Hti & Hmi & Hla & Hlt & Hlc).
  destruct s as [n i q dl ti mi la lt lc]. simpl in *. subst.
  unfold debounced, holding. simpl. rewrite Hlead, Htrail, Hmax. simpl.
  repeat split. exists i. repeat split. discriminate.
Qed.

Lemma call_keeps_holding tl rc this args s :
  holding cfg tl rc s ->
  holding cfg (now s) (Some (this, args)) (debounced cfg this args s) /\
  delivered (debounced cfg this args s) = delivered s /\
  now (debounced cfg this args s) = now s.
Proof.
  intros (id & Hq & Hti & Hmi & Hlc & Hla & Hlt).
  destruct s as [n i q dl ti mi la lt lc]. simpl in *. subst.
  unfold debounced, holding. simpl. rewrite Htrail, Hmax.
  destruct lc; [|congruence]. simpl. rewrite Pos.eqb_refl. simpl.
  repeat split. exists i. repeat split. discriminate.
Qed.

Lemma tick_keeps_holding tl rc d s :
  holding cfg tl rc s -> 0 <= d -> now s + d < tl + timer_delay false (wait cfg) ->
  holding cfg tl rc (tick cfg d s) /\
  delivered (tick cfg d s) = delivered s /\
  now (tick cfg d s) = now s + d.
Proof.
  intros (id & Hq & Hti & Hmi & Hlc & Hla & Hlt) Hd Hearly.
  destruct s as [n i q dl ti mi la lt lc]. simpl in *. subst.
  unfold tick, holding. simpl. rewrite next_due_single. simpl.
  destruct (Z.leb_spec (tl + timer_delay false (wait cfg)) (n + d)); [lia|].
  simpl. repeat split; [now exists id | lia].
Qed.

Lemma tick_ends_holding tl rc d s :
  holding cfg tl rc s -> now s <= tl + timer_delay false (wait cfg) <= now s + d ->
  delivered (tick cfg d s) =
    match rc with
    | Some (this, args) =>
        mkDelivery (tl + timer_delay false (wait cfg)) this args :: delivered s
    | None => delivered s
    end /\
  idle (tick cfg d s).
Proof.
  intros (id & Hq & Hti & Hmi & Hlc & Hla & Hlt) Hlate.
  destruct s as [n i q dl ti mi la lt lc]. simpl in *. subst.
  unfold tick, idle. simpl. rewrite next_due_single. simpl.
  destruct (Z.leb_spec (tl + timer_delay false (wait cfg)) (n + d)); [|lia].
  unfold run_timer, fire. simpl. rewrite Pos.eqb_refl, Hlead. simpl.
  destruct rc as [[this args]|]; simpl; repeat split.
  do 2 f_equal. lia.
Qed.

Lemma burst_keeps_holding rest :
  0 <= wait cfg <= maxTimeout ->
  forall s rc acc,
    0 <= acc -> (acc = 0 \/ acc < wait cfg) ->
    holding cfg (now s - acc) rc s ->
    within_wait (wait cfg) acc rest ->
    holding cfg (now (run cfg rest s) - since_last acc rest)
            (last_record rc rest) (run cfg rest s) /\
    delivered (run cfg rest s) = delivered s /\
    0 <= since_last acc rest /\
    (since_last acc rest = 0 \/ since_last acc rest < wait cfg).
Proof.
  intros Hwait.
  destruct (timer_delay_kept false (wait cfg) Hwait) as (Hkeep & _).
  induction rest as [|e rest IH]; intros s rc acc Hacc Hlt Hw Hb; simpl.
  - auto.
  - destruct e as [this args|d| |]; simpl in Hb; try contradiction.
    + destruct (call_keeps_holding _ rc this args s Hw) as (Hw' & Hd' & Hn').
      specialize (IH (debounced cfg this args s) (Some (this, args)) 0).
      rewrite Z.sub_0_r, Hn', Hd' in IH. apply IH; auto; lia.
    + destruct Hb as (Hd & Hsum & Hb).
      destruct (tick_keeps_holding _ rc d s Hw Hd) as (Hw' & Hd' & Hn');
        [lia|].
      specialize (IH (tick cfg d s) rc (acc + d)).
      rewrite Hn', Hd' in IH. apply IH; auto; try lia.
      replace (now s + d - (acc + d)) with (now s - acc) by lia. exact Hw'.
Qed.

End BothEdges.

(** *** No more calls of [func] than calls of the debounced function *)

Lemma owed_debounced this args s :
  (owed (debounced cfg this args s) <= owed s + 1)%nat.
Proof.
  unfold owed. rewrite debounced_delivered, debounced_lastArgs.
  destruct (_ && _); destruct (lastArgs s); simpl; lia.
Qed.

Lemma owed_run_timer t s : (owed (run_timer cfg t s) <= owed s)%nat.
Proof.
  unfold owed. rewrite run_timer_delivered.
  assert (E : lastArgs (run_timer cfg t s) = None)
    by (unfold run_timer; apply fire_resets).
  rewrite E. destruct (lastArgs s); simpl; lia.
Qed.

Lemma owed_tick d s : (owed (tick cfg d s) <= owed s)%nat.
Proof.
  unfold tick.
  apply advance_ind with (P := fun s' => (owed s' <= owed s)%nat);
    [| |reflexivity|lia].
  - intros r t H _. pose proof (owed_run_timer t r). lia.
  - intros r H _. exact H.
Qed.

Lemma owed_cancel s : (owed (cancel s) <= owed s)%nat.
Proof.
  unfold owed. rewrite cancel_delivered.
  destruct (cancel_clears s) as (_ & _ & E & _). rewrite E.
  destruct (lastArgs s); lia.
Qed.

Lemma owed_flush s : (owed (flush s) <= owed s)%nat.
Proof.
  unfold owed. rewrite flush_delivered.
  destruct (flush_clears s) as (_ & _ & E & _). rewrite E.
  destruct (lastArgs s); simpl; lia.
Qed.

Lemma owed_run es :
  forall s, (owed (run cfg es s) <= owed s + length (calls_of es))%nat.
Proof.
  induction es as [|e es IH]; intros s; simpl; [lia|].
  specialize (IH (step cfg s e)). destruct e; cbn [step calls_of length] in *.
  - pose proof (owed_debounced this args s). lia.
  - pose proof (owed_tick d s). lia.
  - pose proof (owed_cancel s). lia.
  - pose proof (owed_flush s). lia.
Qed.

(** *** The calls already made do not matter to what comes next *)

Lemma debounced_base base this args s :
  debounced cfg this args (set_delivered (delivered s ++ base) s)
  = set_delivered (delivered (debounced cfg this args s) ++ base)
                  (debounced cfg this args s).
Proof.
  destruct s as [n i q dl ti mi la lt lc]. unfold debounced. simpl.
  destruct (_ && _); simpl;
    destruct ti, (trailing cfg), (maxWait cfg), mi; reflexivity.
Qed.

Lemma cancel_base base s :
  cancel (set_delivered (delivered s ++ base) s)
  = set_delivered (delivered (cancel s) ++ base) (cancel s).
Proof.
  destruct s as [n i q dl ti mi la lt lc]. unfold cancel. simpl.
  destruct ti, mi; reflexivity.
Qed.

Lemma flush_base base s :
  flush (set_delivered (delivered s ++ base) s)
  = set_delivered (delivered (flush s) ++ base) (flush s).
Proof.
  destruct s as [n i q dl ti mi la lt lc]. unfold flush. simpl.
  destruct ti, mi, la; reflexivity.
Qed.

Lemma run_timer_base base t s :
  run_timer cfg t (set_delivered (delivered s ++ base) s)
  = set_delivered (delivered (run_timer cfg t s) ++ base) (run_timer cfg t s).
Proof.
  destruct s as [n i q dl ti mi la lt lc].
  unfold run_timer, fire, invokeFunc. simpl.
  destruct (job t); simpl.
  - destruct mi, (leading cfg), la; reflexivity.
  - destruct ti, la; reflexivity.
Qed.

Lemma advance_base base target n :
  forall s,
    advance cfg n target (set_delivered (delivered s ++ base) s)
    = set_delivered (delivered (advance cfg n target s) ++ base)
                    (advance cfg n target s).
Proof.
  induction n as [|n IH]; intros s; simpl; [reflexivity|].
  destruct (next_due target (timers s)) as [t|]; [|reflexivity].
  rewrite run_timer_base. apply IH.
Qed.

Lemma run_base base es :
  forall s,
    run cfg es (set_delivered (delivered s ++ base) s)
    = set_delivered (delivered (run cfg es s) ++ base) (run cfg es s).
Proof.
  induction es as [|e es IH]; intros s; simpl; [reflexivity|].
  rewrite <- IH. f_equal. destruct e; cbn [step].
  - apply debounced_base.
  - unfold tick. simpl. apply advance_base.
  - apply cancel_base.
  - apply flush_base.
Qed.

Lemma cancel_shape s :
  cancel s = mkState (now s) (nextId s) (timers (cancel s)) (delivered s)
                     None None None None None.
Proof.
  destruct s as [n i q dl ti mi la lt lc]. unfold cancel. simpl.
  destruct ti, mi; reflexivity.
Qed.

Lemma cancel_restart s :
  consistent cfg s ->
  cancel s = set_delivered (delivered (restart s) ++ delivered s) (restart s).
Proof.
  intros Hc. rewrite (cancel_shape s), (cancel_drains cfg s Hc). reflexivity.
Qed.

End Facts.

(** *** Properties *)

(** X1. In every reachable state a queued trailing timer is due, counted
    from the last call of the debounced function (whose time
    [lastCallTime] holds), after the delay that the platform gives to
    [wait]: [wait] ms itself when [0 <= wait <= 2^31 - 1], no delay for a
    negative wait, and 1 ms for a wait beyond [2^31 - 1]. *)
Theorem trailing_timer_is_punctual {Arg Ctx : Type} (cfg : Config)
        (s : State Arg Ctx) (t : Timer Callback) :
  reachable cfg s -> In t (timers s) -> job t = Trailing ->
  exists tl, lastCallTime s = Some tl /\ tl <= now s /\
             due t = tl + timer_delay false (wait cfg) /\
             (0 <= wait cfg <= maxTimeout -> due t = tl + wait cfg) /\
             (wait cfg < 0 -> due t = tl) /\
             (maxTimeout < wait cfg -> due t = tl + 1).
Proof.
  intros (start & es & ->) Hin Hj.
  destruct (proj2 (punctual_run cfg es (fresh start)
                     (conj (consistent_fresh cfg start)
                           (punctual_fresh cfg start))) t Hin Hj)
    as (tl & Hl & Hle & Hd).
  exists tl. repeat split; try assumption.
  - intros Hw. rewrite Hd.
    now rewrite (proj1 (timer_delay_kept false (wait cfg) Hw)).
  - intros Hw. rewrite Hd. unfold timer_delay, maxTimeout.
    destruct (Z.gtb_spec (wait cfg) 2147483647); [lia|].
    replace (Z.max 0 (wait cfg)) with 0 by lia. simpl. lia.
  - intros Hw. rewrite Hd.
    now rewrite (timer_delay_overflow false (wait cfg) Hw).
Qed.

Lemma trailing_timer_is_punctual_witness :
  exists tl,
    lastCallTime
      (run (defaults 100) [Call None [1%nat]; Tick 30; Call None [2%nat]; Tick 5]
           (fresh (Ctx:=nat) 0)) = Some tl /\
    tl <= 35 /\ 130 = tl + timer_delay false 100 /\
    (0 <= 100 <= maxTimeout -> 130 = tl + 100) /\
    (100 < 0 -> 130 = tl) /\
    (maxTimeout < 100 -> 130 = tl + 1).
Proof.
  apply (trailing_timer_is_punctual (defaults 100)
           (run (defaults 100)
                [Call None [1%nat]; Tick 30; Call None [2%nat]; Tick 5]
                (fresh (Ctx:=nat) 0))
           (mkTimer 2%positive 130 Trailing)).
  - eexists 0, _. reflexivity.
  - simpl. left. reflexivity.
  - reflexivity.
Defined.

(** X2. In every reachable state the queued timers have distinct handles,
    there is at most one timer of each kind, hence at most two in all. *)
Theorem at_most_one_timer_of_each_kind {Arg Ctx : Type} (cfg : Config)
        (s : State Arg Ctx) :
  reachable cfg s ->
  NoDup (map tid (timers s)) /\
  (forall t u, In t (timers s) -> In u (timers s) -> job t = job u -> t = u) /\
  (length (timers s) <= 2)%nat.
Proof.
  intros (start & es & ->).
  destruct (distinct_run cfg es (fresh start)) as (Hc & Hd).
  { split; [apply consistent_fresh|constructor]. }
  set (s := run cfg es (fresh start)) in *.
  split; [exact Hd|]. split.
  - intros t u Ht Hu Hj.
    apply (handle_names_one_timer (timers s)); try assumption.
    pose proof (co_owner _ _ Hc t Ht) as H1.
    pose proof (co_owner _ _ Hc u Hu) as H2.
    rewrite Hj in H1. congruence.
  - rewrite <- (length_map tid).
    apply (NoDup_incl_length
             (l' := match timeoutId s with Some i => [i] | None => [] end
                    ++ match maxTimeoutId s with Some i => [i] | None => [] end))
      in Hd.
    + rewrite length_app in Hd.
      destruct (timeoutId s), (maxTimeoutId s); simpl in Hd; lia.
    + intros i Hi. apply in_map_iff in Hi. destruct Hi as (t & <- & Ht).
      pose proof (co_owner _ _ Hc t Ht) as Ho.
      apply in_or_app. destruct (job t); simpl in Ho; rewrite Ho.
      * left. now left.
      * right. now left.
Qed.

Lemma at_most_one_timer_of_each_kind_witness :
  Nat.le
    (length
       (timers
          (run (mkConfig 100 true true (Some 150))
               [Call None [1%nat]; Tick 30; Call None [2%nat]; Call None [3%nat]]
               (fresh (Ctx:=nat) 0))))
    2%nat.
Proof.
  apply (at_most_one_timer_of_each_kind (mkConfig 100 true true (Some 150))).
  eexists 0, _. reflexivity.
Defined.

(** X3. With the trailing edge enabled a recorded call is never lost: in a
    reachable state with a call recorded, waiting [wait] ms or more calls
    [func] exactly once, with the recorded [this] and arguments, at a time
    no later than [wait] ms from now, and leaves nothing recorded and no
    timer. *)
Theorem recorded_call_is_delivered {Arg Ctx : Type} (cfg : Config)
        (s : State Arg Ctx) (a : list Arg) (d : Z) :
  trailing cfg = true -> reachable cfg s -> lastArgs s = Some a ->
  Z.max 0 (wait cfg) <= d ->
  exists T,
    now s <= T <= now s + Z.max 0 (wait cfg) /\
    delivered (tick cfg d s) = mkDelivery T (lastThis s) a :: delivered s /\
    timers (tick cfg d s) = [] /\ lastArgs (tick cfg d s) = None.
Proof.
  intros Ht Hr Ha Hd.
  pose proof (reachable_consistent cfg s Hr) as Hc.
  assert (Hti : timeoutId s <> None).
  { destruct Hr as (start & es & ->).
    apply (recorded_scheduled_run cfg es Ht (fresh start));
      [intros H; now elim H|congruence]. }
  destruct (timeoutId s) as [i|] eqn:Ei; [clear Hti|congruence].
  destruct (co_live _ _ Hc Trailing i Ei) as (t & Hin & _ & Hj).
  pose proof (co_bound _ _ Hc t Hin) as Hb. rewrite Hj in Hb. simpl in Hb.
  destruct (next_due_exists (timers s) (now s + d) t Hin) as (u & Hu); [lia|].
  pose proof (next_due_Some _ _ _ Hu) as (Hinu & _ & Hmin).
  pose proof (co_after _ _ Hc u Hinu) as Hafter.
  specialize (Hmin t Hin).
  exists (due u). split; [lia|].
  unfold tick. destruct (length (timers s)) as [|n] eqn:El.
  { destruct (timers s); [contradiction|discriminate]. }
  simpl. rewrite Hu.
  rewrite (advance_drained cfg n _ _ (run_timer_drains cfg u s Hc Hinu)).
  simpl. rewrite run_timer_delivered, Ha.
  replace (Z.max (now s) (due u)) with (due u) by lia.
  split; [reflexivity|].
  split; [now apply run_timer_drains|].
  unfold run_timer. apply fire_resets.
Qed.

Lemma recorded_call_is_delivered_witness :
  exists T,
    35 <= T <= 35 + Z.max 0 100 /\
    delivered
      (tick (mkConfig 100 true true None) 100
         (run (mkConfig 100 true true None)
              [Call None [1%nat]; Tick 30; Call (Some 4%nat) [2%nat]; Tick 5]
              (fresh (Ctx:=nat) 0)))
    = [mkDelivery T (Some 4%nat) [2%nat]; mkDelivery 0 None [1%nat]] /\
    timers
      (tick (mkConfig 100 true true None) 100
         (run (mkConfig 100 true true None)
              [Call None [1%nat]; Tick 30; Call (Some 4%nat) [2%nat]; Tick 5]
              (fresh (Ctx:=nat) 0))) = [] /\
    lastArgs
      (tick (mkConfig 100 true true None) 100
         (run (mkConfig 100 true true None)
              [Call None [1%nat]; Tick 30; Call (Some 4%nat) [2%nat]; Tick 5]
              (fresh (Ctx:=nat) 0))) = None.
Proof.
  apply (recorded_call_is_delivered (mkConfig 100 true true None)
           (run (mkConfig 100 true true None)
                [Call None [1%nat]; Tick 30; Call (Some 4%nat) [2%nat]; Tick 5]
                (fresh (Ctx:=nat) 0))
           [2%nat] 100).
  - reflexivity.
  - eexists 0, _. reflexivity.
  - reflexivity.
  - simpl. lia.
Defined.

(** X4. With the trailing edge disabled and no [maxWait] no timer is ever
    scheduled and [pending] is always false.  With the leading edge
    disabled as well, calls, waits and cancels never call [func]; with the
    leading edge enabled, the first call of a new controller is delivered
    at once and no later call is, however the caller calls and waits. *)
Theorem no_timer_without_trailing_edge {Arg Ctx : Type} (cfg : Config) :
  trailing cfg = false -> maxWait cfg = None ->
  (forall s : State Arg Ctx,
      reachable cfg s -> timers s = [] /\ pending s = false) /\
  (leading cfg = false ->
   forall start (es : list (event Arg Ctx)),
     Forall not_flush es -> delivered (run cfg es (fresh start)) = []) /\
  (leading cfg = true ->
   forall start this args (es : list (event Arg Ctx)),
     Forall call_or_tick es ->
     delivered (run cfg (Call this args :: es) (fresh start))
     = [mkDelivery start this args]).
Proof.
  intros Ht Hm.
  assert (H0 : forall start,
             timers (fresh (Arg:=Arg) (Ctx:=Ctx) start) = [] /\
             timeoutId (fresh (Arg:=Arg) (Ctx:=Ctx) start) = None /\
             maxTimeoutId (fresh (Arg:=Arg) (Ctx:=Ctx) start) = None)
    by (intros; repeat split).
  split; [|split].
  - intros s (start & es & ->).
    destruct (timerless_run cfg Ht Hm es (fresh start) (H0 start))
      as (Hq & Hti & _).
    unfold pending. now rewrite Hti.
  - intros Hl start es Hes.
    now rewrite (silent_run cfg Ht Hm es Hl Hes (fresh start) (H0 start)).
  - intros Hl start this args es Hes.
    change (run cfg (Call this args :: es) (fresh start))
      with (run cfg es (debounced cfg this args (fresh start))).
    rewrite (marked_run cfg Ht Hm es Hes).
    + rewrite debounced_delivered, Hl. reflexivity.
    + apply (timerless_step cfg Ht Hm (Call this args) (fresh start)), H0.
    + rewrite debounced_marks. discriminate.
Qed.

Lemma no_timer_without_trailing_edge_witness :
  delivered
    (run (mkConfig 100 true false None)
         [Call None [1%nat]; Tick 500; Call None [2%nat]; Tick 500]
         (fresh (Ctx:=nat) 0))
  = [mkDelivery 0 None [1%nat]].
Proof.
  destruct (@no_timer_without_trailing_edge nat nat
              (mkConfig 100 true false None) eq_refl eq_refl)
    as (_ & _ & H).
  apply (H eq_refl 0 None [1%nat] [Tick 500; Call None [2%nat]; Tick 500]).
  repeat constructor.
Defined.

(** X5. With both edges enabled, no [maxWait] and a wait [w] that a timer
    can hold ([0 <= w <= 2^31 - 1]), a burst that
    starts on an idle controller delivers its first call at once; a burst
    of that one call delivers nothing more (the trailing timer runs
    silently), and a burst of several calls delivers exactly one more
    call, [w] ms after its last call and with [this] and the arguments of
    that call. *)
Theorem both_edges_burst {Arg Ctx : Type} (w : Z) (s : State Arg Ctx)
        (this : option Ctx) (args : list Arg) (rest : list (event Arg Ctx)) :
  0 <= w <= maxTimeout -> idle s -> within_wait w 0 rest ->
  let cfg := mkConfig w true true None in
  let s' := run cfg (Call this args :: rest) s in
  let e := since_last 0 rest in
  delivered s' = mkDelivery (now s) this args :: delivered s /\
  (forall d ds, w <= e + d ->
     delivered (run cfg (map Tick ds) (tick cfg d s')) =
     match last_record None rest with
     | Some (this', args') =>
         mkDelivery (now s' - e + w) this' args'
         :: mkDelivery (now s) this args :: delivered s
     | None => mkDelivery (now s) this args :: delivered s
     end).
Proof.
  intros Hw Hidle Hrest cfg s' e.
  destruct (call_opens_burst cfg eq_refl eq_refl eq_refl this args s Hidle)
    as (Hh & Hd & Hn).
  assert (Hh0 : holding cfg (now (debounced cfg this args s) - 0) None
                        (debounced cfg this args s))
    by (rewrite Z.sub_0_r, Hn; exact Hh).
  destruct (burst_keeps_holding cfg eq_refl eq_refl rest Hw
              (debounced cfg this args s) None 0
              (Z.le_refl 0) (or_introl eq_refl) Hh0 Hrest)
    as (Hh' & Hd' & He0 & He).
  change (run cfg rest (debounced cfg this args s)) with s' in Hh', Hd'.
  fold e in Hh', He0, He.
  assert (Hwc : wait cfg = w) by reflexivity. rewrite Hwc in He.
  assert (Hmax : timer_delay false w = w)
    by exact (proj1 (timer_delay_kept false w Hw)).
  split; [congruence|].
  intros d ds Hlate.
  destruct (tick_ends_holding cfg eq_refl _ _ d s' Hh') as (E & Hi).
  - rewrite Hwc, Hmax. lia.
  - destruct Hi as (Hq & _).
    destruct (drained_ticks cfg ds _ Hq) as (_ & E').
    rewrite E', E, Hd', Hd. simpl. rewrite Hmax.
    destruct (last_record None rest) as [[this' args']|]; reflexivity.
Qed.

Lemma both_edges_burst_witness :
  delivered
    (run (mkConfig 100 true true None) (map Tick [1000])
       (tick (mkConfig 100 true true None) 100
          (run (mkConfig 100 true true None)
               [Call None [1%nat]; Tick 30; Call (Some 7%nat) [2%nat]]
               (fresh 0))))
  = [mkDelivery 130 (Some 7%nat) [2%nat]; mkDelivery 0 None [1%nat]].
Proof.
  assert (H0 : 0 <= 100 <= maxTimeout) by (unfold maxTimeout; lia).
  assert (H1 : idle (fresh (Arg:=nat) (Ctx:=nat) 0))
    by (repeat split; reflexivity).
  assert (H2 : within_wait (Arg:=nat) (Ctx:=nat) 100 0
                 [Tick 30; Call (Some 7%nat) [2%nat]])
    by (simpl; lia).
  destruct (both_edges_burst 100 (fresh 0) None [1%nat] _ H0 H1 H2)
    as (_ & H).
  apply (H 100 [1000]). simpl. lia.
Defined.

(** X6. Whatever the options and whatever the caller does with a new
    debounced function, [func] is called at most as many times as the
    debounced function was called, and each time with [this] and the
    arguments of one of those calls. *)
Theorem never_more_deliveries_than_calls {Arg Ctx : Type} (cfg : Config)
        (start : Z) (es : list (event Arg Ctx)) :
  (length (delivered (run cfg es (fresh start))) <= length (calls_of es))%nat /\
  forall x, In x (delivered (run cfg es (fresh start))) ->
            In (thisArg x, argsOf x) (calls_of es).
Proof.
  split.
  - pose proof (owed_run cfg es (fresh start)) as H.
    unfold owed in H. simpl in H. lia.
  - destruct (traced_run cfg [] es [] (fresh start)) as (_ & new & E & H).
    + split; [discriminate|]. exists []. split; [reflexivity|intros x []].
    + rewrite app_nil_r in E. rewrite E. exact H.
Qed.

(** X8. [cancel] makes the controller new again: after a cancel in a
    reachable state, whatever the caller does, the controller goes through
    the states of a new controller created at that moment (same clock,
    same next handle), but for the calls of [func] made before the cancel,
    which stay at the end of the record. *)
Theorem cancel_restarts {Arg Ctx : Type} (cfg : Config) (s : State Arg Ctx)
        (es : list (event Arg Ctx)) :
  reachable cfg s ->
  run cfg es (cancel s)
  = set_delivered (delivered (run cfg es (restart s)) ++ delivered s)
                  (run cfg es (restart s)).
Proof.
  intros Hr.
  rewrite (cancel_restart cfg s (reachable_consistent cfg s Hr)).
  apply run_base.
Qed.

Lemma cancel_restarts_witness :
  delivered
    (run (defaults 100) [Call None [3%nat]; Tick 100]
       (cancel (run (defaults 100)
                    [Call None [1%nat]; Tick 100; Call None [2%nat]; Tick 50]
                    (fresh (Ctx:=nat) 0))))
  = delivered
      (run (defaults 100) [Call None [3%nat]; Tick 100]
         (restart (run (defaults 100)
                    [Call None [1%nat]; Tick 100; Call None [2%nat]; Tick 50]
                    (fresh (Ctx:=nat) 0))))
    ++ [mkDelivery 100 None [1%nat]].
Proof.
  rewrite (cancel_restarts (defaults 100)
             (run (defaults 100)
                  [Call None [1%nat]; Tick 100; Call None [2%nat]; Tick 50]
                  (fresh (Ctx:=nat) 0))
             [Call None [3%nat]; Tick 100]).
  - reflexivity.
  - eexists 0, _. reflexivity.
Defined.

End DebounceMore.

(** ** throttle *)

Module ThrottleMore.
Import Throttle ThrottleFacts.

Section Facts.
Context {Arg Ctx : Type}.
Variable cfg : Config.
Implicit Types (s : State Arg Ctx) (t u : Timer Callback) (k : Callback).

(** *** Waiting with nothing recorded *)

Lemma advance_quiet target n :
  forall s, lastArgs s = None ->
            lastArgs (advance cfg n target s) = None /\
            delivered (advance cfg n target s) = delivered s.
Proof.
  induction n as [|n IH]; intros s Ha; simpl; [auto|].
  destruct (next_due target (timers s)) as [t|]; [|auto].
  rewrite (run_timer_nothing cfg t s Ha).
  apply (IH (set_duringTick false
               (set_inThrottle false
                  (set_timers (clearTimeout (tid t) (timers s))
                              (set_now (Z.max (now s) (due t)) s))))).
  exact Ha.
Qed.

Lemma ticks_quiet ds :
  forall s, lastArgs s = None ->
            delivered (run cfg (map Tick ds) s) = delivered s.
Proof.
  induction ds as [|d ds IH]; intros s Ha; simpl; [reflexivity|].
  destruct (advance_quiet (now s + d) (rounds s) s Ha) as (Ha' & Hd').
  rewrite IH; assumption.
Qed.

Lemma advance_idle target n s :
  next_due target (timers s) = None ->
  advance cfg n target s = set_now (Z.max (now s) target) s.
Proof. intros H. destruct n; simpl; [reflexivity|]. now rewrite H. Qed.

Lemma rounds_positive s t : In t (timers s) -> exists n, rounds s = S n.
Proof.
  intros Hin. unfold rounds. destruct (timers s); [contradiction|].
  simpl. eexists. reflexivity.
Qed.

(** A due cooldown timer with a call recorded: one more call of [func]. *)
Lemma tick_delivers_recorded d s t a :
  timers s = [t] -> lastArgs s = Some a -> due t <= now s + d ->
  delivered (tick cfg d s)
  = mkDelivery (Z.max (now s) (due t)) (lastThis s) a :: delivered s /\
  lastArgs (tick cfg d s) = None.
Proof.
  intros Hq Ha Hd. unfold tick.
  assert (Hin : In t (timers s)) by (rewrite Hq; now left).
  destruct (rounds_positive s t Hin) as (n & ->).
  assert (Hnext : next_due (now s + d) (timers s) = Some t).
  { rewrite Hq, next_due_single.
    destruct (Z.leb_spec (due t) (now s + d)); [reflexivity|lia]. }
  rewrite (advance_due cfg _ n _ _ Hnext).
  destruct (advance_quiet (now s + d) n (run_timer cfg t s)) as (E1 & E2).
  - rewrite (run_timer_recorded cfg t s a Ha). reflexivity.
  - split; [|exact E1].
    rewrite E2, (run_timer_recorded cfg t s a Ha). reflexivity.
Qed.

(** *** One cooldown *)

Lemma call_starts_cooling this args s :
  consistent cfg s -> inThrottle s = false ->
  cooling (now s + timer_delay false (wait cfg)) None
          (throttled cfg this args s) /\
  delivered (throttled cfg this args s)
  = mkDelivery (now s) this args :: delivered s /\
  now (throttled cfg this args s) = now s.
Proof.
  intros Hc Hit. unfold consistent in Hc. rewrite Hit in Hc.
  destruct Hc as (Hdt & Hq & _).
  rewrite (throttled_free cfg this args s Hit). simpl. rewrite Hq, Hdt.
  repeat split. now exists (nextId s).
Qed.

Lemma call_keeps_cooling D rc this args s :
  cooling D rc s ->
  cooling D (Some (this, args)) (throttled cfg this args s) /\
  delivered (throttled cfg this args s) = delivered s /\
  now (throttled cfg this args s) = now s.
Proof.
  intros (id & Hq & Hit & Hla & Hlt).
  rewrite (throttled_cooling cfg this args s Hit). simpl.
  repeat split. now exists id.
Qed.

Lemma tick_keeps_cooling D rc d s :
  cooling D rc s -> 0 <= d -> now s + d < D ->
  cooling D rc (tick cfg d s) /\
  delivered (tick cfg d s) = delivered s /\
  now (tick cfg d s) = now s + d.
Proof.
  intros (id & Hq & Hit & Hla & Hlt) Hd Hearly. unfold tick.
  rewrite advance_idle.
  - simpl. repeat split; [now exists id|lia].
  - rewrite Hq, next_due_single. simpl.
    destruct (Z.leb_spec D (now s + d)); [lia|reflexivity].
Qed.

Lemma tick_ends_cooling D rc d s :
  cooling D rc s -> now s <= D <= now s + d ->
  delivered (tick cfg d s) =
    match rc with
    | Some (this, args) => mkDelivery D this args :: delivered s
    | None => delivered s
    end /\
  lastArgs (tick cfg d s) = None.
Proof.
  intros (id & Hq & Hit & Hla & Hlt) Hlate.
  destruct rc as [[this args]|]; simpl in Hla, Hlt.
  - destruct (tick_delivers_recorded d s _ args Hq Hla) as (E1 & E2);
      [simpl; lia|].
    simpl in E1. rewrite E1, Hlt.
    replace (Z.max (now s) D) with D by lia. auto.
  - unfold tick.
    destruct (advance_quiet (now s + d) (rounds s) s Hla); auto.
Qed.

Lemma burst_keeps_cooling D rest :
  forall s rc acc,
    0 <= acc -> (acc = 0 \/ acc < wait cfg) ->
    now s - acc + wait cfg = D ->
    cooling D rc s ->
    inside_window (wait cfg) acc rest ->
    cooling D (last_record rc rest) (run cfg rest s) /\
    delivered (run cfg rest s) = delivered s /\
    now (run cfg rest s) - elapsed acc rest + wait cfg = D /\
    0 <= elapsed acc rest /\
    (elapsed acc rest = 0 \/ elapsed acc rest < wait cfg).
Proof.
  induction rest as [|e rest IH]; intros s rc acc Hacc Hlt HD Hc Hb; simpl.
  - auto.
  - destruct e as [this args|d|]; simpl in Hb; try contradiction.
    + destruct (call_keeps_cooling D rc this args s Hc) as (Hc' & Hd' & Hn').
      specialize (IH (throttled cfg this args s) (Some (this, args)) acc).
      rewrite Hn', Hd' in IH. apply IH; auto.
    + destruct Hb as (Hd & Hsum & Hb).
      destruct (tick_keeps_cooling D rc d s Hc Hd) as (Hc' & Hd' & Hn');
        [lia|].
      specialize (IH (tick cfg d s) rc (acc + d)).
      rewrite Hn', Hd' in IH. apply IH; auto; lia.
Qed.

(** *** No more calls of [func] than calls of the throttled function *)

Lemma owed_throttled this args s :
  (owed (throttled cfg this args s) <= owed s + 1)%nat.
Proof.
  unfold owed. destruct (inThrottle s) eqn:E.
  - rewrite (throttled_cooling cfg this args s E). simpl.
    destruct (lastArgs s); lia.
  - rewrite (throttled_free cfg this args s E). simpl.
    destruct (lastArgs s); lia.
Qed.

Lemma throttle_owed_run_timer t s : (owed (run_timer cfg t s) <= owed s)%nat.
Proof.
  unfold owed. destruct (lastArgs s) as [a|] eqn:E.
  - rewrite (run_timer_recorded cfg t s a E). simpl. lia.
  - rewrite (run_timer_nothing cfg t s E). simpl. rewrite E. lia.
Qed.

Lemma throttle_owed_tick d s : (owed (tick cfg d s) <= owed s)%nat.
Proof.
  unfold tick.
  apply throttle_advance_ind with (P := fun s' => (owed s' <= owed s)%nat);
    [| |reflexivity|lia].
  - intros r t H _. pose proof (throttle_owed_run_timer t r). lia.
  - intros r H _. exact H.
Qed.

Lemma throttle_owed_cancel s : (owed (cancel s) <= owed s)%nat.
Proof.
  unfold owed. rewrite throttle_cancel_delivered, cancel_lastArgs.
  destruct (lastArgs s); lia.
Qed.

Lemma throttle_owed_run es :
  forall s, (owed (run cfg es s) <= owed s + length (calls_of es))%nat.
Proof.
  induction es as [|e es IH]; intros s; simpl; [lia|].
  specialize (IH (step cfg s e)).
  destruct e; cbn [step calls_of length] in *.
  - pose proof (owed_throttled this args s). lia.
  - pose proof (throttle_owed_tick d s). lia.
  - pose proof (throttle_owed_cancel s). lia.
Qed.

End Facts.

(** *** Properties *)

(** X9. A throttled function whose wait [w] is one a timer can hold
    ([0 <= w <= 2^31 - 1]) collapses the calls of one cooldown to two
    calls of [func]: in a reachable state outside a cooldown (a new
    controller, a cancelled one, or one whose cooldown is over) the first
    call is delivered at once; of the calls that follow less than [w] ms
    after it only the last is delivered, [w] ms after the first; and if
    none follows nothing more is delivered, however long one waits. *)
Theorem throttle_burst_two_deliveries {Arg Ctx : Type} (w : Z)
        (s : State Arg Ctx) (this : option Ctx) (args : list Arg)
        (rest : list (event Arg Ctx)) :
  0 <= w <= maxTimeout -> reachable (mkConfig w) s -> inThrottle s = false ->
  inside_window w 0 rest ->
  let cfg := mkConfig w in
  let s' := run cfg (Call this args :: rest) s in
  delivered s' = mkDelivery (now s) this args :: delivered s /\
  (forall d ds, w <= elapsed 0 rest + d ->
     delivered (run cfg (map Tick ds) (tick cfg d s')) =
     match last_record None rest with
     | Some (this', args') =>
         mkDelivery (now s + w) this' args'
         :: mkDelivery (now s) this args :: delivered s
     | None => mkDelivery (now s) this args :: delivered s
     end).
Proof.
  intros Hw Hr Hfree Hrest cfg s'.
  pose proof (throttle_reachable_consistent cfg s Hr) as Hcons.
  destruct (call_starts_cooling cfg this args s Hcons Hfree) as (Hc & Hd & Hn).
  assert (Hmax : timer_delay false (wait cfg) = w)
    by exact (proj1 (timer_delay_kept false w Hw)).
  rewrite Hmax in Hc.
  destruct (burst_keeps_cooling cfg (now s + w) rest
              (throttled cfg this args s) None 0)
    as (Hc' & Hd' & HD & He0 & He); auto; try (simpl; lia).
  change (run cfg rest (throttled cfg this args s)) with s' in Hc', Hd', HD.
  simpl in He, HD.
  split; [congruence|].
  intros d ds Hlate.
  destruct (tick_ends_cooling cfg _ _ d s' Hc') as (E & Ha); [lia|].
  rewrite (ticks_quiet cfg ds _ Ha), E, Hd', Hd.
  destruct (last_record None rest) as [[this' args']|]; reflexivity.
Qed.

Lemma throttle_burst_two_deliveries_witness :
  delivered
    (run (mkConfig 100) (map Tick [1000])
       (tick (mkConfig 100) 10
          (run (mkConfig 100)
               [Call None [1%nat]; Tick 10; Call None [2%nat]; Tick 10;
                Call None [3%nat]; Tick 70; Call (Some 5%nat) [4%nat]]
               (run (mkConfig 100) [Call None [0%nat]; Tick 150]
                    (fresh 0)))))
  = [mkDelivery 250 (Some 5%nat) [4%nat]; mkDelivery 150 None [1%nat];
     mkDelivery 0 None [0%nat]].
Proof.
  assert (H0 : 0 <= 100 <= maxTimeout) by (unfold maxTimeout; lia).
  assert (H1 : reachable (mkConfig 100)
                 (run (mkConfig 100) [Call None [0%nat]; Tick 150]
                      (fresh (Ctx:=nat) 0)))
    by (eexists 0, _; reflexivity).
  assert (H2 : inside_window (Arg:=nat) (Ctx:=nat) 100 0
                 [Tick 10; Call None [2%nat]; Tick 10;
                  Call None [3%nat]; Tick 70; Call (Some 5%nat) [4%nat]])
    by (simpl; lia).
  destruct (throttle_burst_two_deliveries 100 _ None [1%nat] _
              H0 H1 eq_refl H2) as (_ & H).
  apply (H 10 [1000]). simpl. lia.
Defined.

(** X10. A throttled function never loses the last call.  After a call in
    a reachable state, if the caller then only waits: outside a cooldown
    the call is delivered at once, exactly once, and nothing after it;
    during a cooldown the queue holds one timer, due no later than
    [max 1 wait] ms from now, nothing is delivered before that timer is
    due, and once it is due the call has been delivered exactly once, at
    the timer's deadline, and nothing after it. *)
Theorem throttle_last_call_is_delivered {Arg Ctx : Type} (cfg : Config)
        (s : State Arg Ctx) (this : option Ctx) (args : list Arg) :
  reachable cfg s ->
  (inThrottle s = false ->
   forall ds,
     delivered (run cfg (map Tick ds) (throttled cfg this args s))
     = mkDelivery (now s) this args :: delivered s) /\
  (inThrottle s = true ->
   exists t,
     timers s = [t] /\ now s <= due t <= now s + Z.max 1 (wait cfg) /\
     (forall d, 0 <= d -> now s + d < due t ->
        delivered (tick cfg d (throttled cfg this args s)) = delivered s) /\
     (forall d ds, due t <= now s + d ->
        delivered (run cfg (map Tick ds)
                       (tick cfg d (throttled cfg this args s)))
        = mkDelivery (due t) this args :: delivered s)).
Proof.
  intros Hr. pose proof (throttle_reachable_consistent cfg s Hr) as Hc.
  unfold consistent in Hc. destruct Hc as (_ & Hc). split; intros E.
  - intros ds. rewrite ticks_quiet;
      now rewrite (throttled_free cfg this args s E).
  - rewrite E in Hc. destruct Hc as (id & D & Hq & Hti & Hid & Hn).
    exists (mkTimer id D Cooldown). cbn [due].
    split; [exact Hq|]. split; [exact Hn|].
    assert (Hcool : cooling D (Some (this, args))
                            (throttled cfg this args s)).
    { rewrite (throttled_cooling cfg this args s E).
      exists id. simpl. auto. }
    assert (Hnow : now (throttled cfg this args s) = now s)
      by now rewrite (throttled_cooling cfg this args s E).
    assert (Hdel : delivered (throttled cfg this args s) = delivered s)
      by now rewrite (throttled_cooling cfg this args s E).
    split.
    + intros d Hd Hearly.
      destruct (tick_keeps_cooling cfg D _ d _ Hcool Hd) as (_ & E1 & _);
        [lia|]. congruence.
    + intros d ds Hlate.
      destruct (tick_ends_cooling cfg D _ d _ Hcool) as (E1 & E2); [lia|].
      rewrite (ticks_quiet cfg ds _ E2), E1. congruence.
Qed.

Lemma throttle_last_call_is_delivered_witness :
  delivered
    (run (mkConfig 100) (map Tick [500])
       (tick (mkConfig 100) 70
          (throttled (mkConfig 100) (Some 2%nat) [9%nat]
             (run (mkConfig 100) [Call None [1%nat]; Tick 30]
                  (fresh (Ctx:=nat) 0)))))
  = [mkDelivery 100 (Some 2%nat) [9%nat]; mkDelivery 0 None [1%nat]].
Proof.
  assert (Hr : reachable (mkConfig 100)
                 (run (mkConfig 100) [Call None [1%nat]; Tick 30]
                      (fresh (Arg:=nat) (Ctx:=nat) 0)))
    by (eexists 0, _; reflexivity).
  destruct (throttle_last_call_is_delivered (mkConfig 100) _
              (Some 2%nat) [9%nat] Hr) as (_ & H).
  destruct (H eq_refl) as (t & Hq & _ & _ & Hlate).
  injection Hq as <-.
  apply (Hlate 70 [500]). unfold timer_delay. simpl. lia.
Defined.

(** X11. Whatever the caller does with a new throttled function, [func]
    is called at most as many times as the throttled function was called,
    and each time with [this] and the arguments of one of those calls. *)
Theorem throttle_never_more_deliveries_than_calls {Arg Ctx : Type}
        (cfg : Config) (start : Z) (es : list (event Arg Ctx)) :
  (length (delivered (run cfg es (fresh start))) <= length (calls_of es))%nat /\
  forall x, In x (delivered (run cfg es (fresh start))) ->
            In (thisArg x, argsOf x) (calls_of es).
Proof.
  split.
  - pose proof (throttle_owed_run cfg es (fresh start)) as H.
    unfold owed in H. simpl in H. lia.
  - destruct (throttle_traced_run cfg [] es [] (fresh start))
      as (_ & new & E & H).
    + split; [discriminate|]. exists []. split; [reflexivity|intros x []].
    + rewrite app_nil_r in E. rewrite E. exact H.
Qed.

End ThrottleMore.

(** ** throttle.raf *)

Module RafFacts.
Import Raf.

Section Facts.
Context {Arg Ctx : Type}.
Implicit Types (s : State Arg Ctx).

(** *** One call, one frame, one cancel, field by field *)

Lemma raf_throttled_first this args s :
  rafId s = None ->
  throttled this args s =
  mkState (now s) (Pos.succ (nextId s)) (frames s ++ [nextId s])
          (delivered s) (Some (nextId s)) (Some args) this.
Proof. destruct s as [n i q dl ri la lt]. simpl. intros ->. reflexivity. Qed.

Lemma raf_throttled_again this args s id :
  rafId s = Some id ->
  throttled this args s = set_lastThis this (set_lastArgs (Some args) s).
Proof. destruct s as [n i q dl ri la lt]. simpl. intros ->. reflexivity. Qed.

Lemma raf_frame_queued d s id :
  frames s = [id] ->
  frame d s =
  on_frame (set_frames [] (set_now (Z.max (now s) (now s + d)) s)).
Proof.
  destruct s as [n i q dl ri la lt]. simpl. intros ->.
  unfold frame, run_callbacks, cancelAnimationFrame. simpl.
  rewrite Pos.eqb_refl. reflexivity.
Qed.

Lemma raf_frame_empty d s :
  frames s = [] -> frame d s = set_now (Z.max (now s) (now s + d)) s.
Proof.
  destruct s as [n i q dl ri la lt]. simpl. intros ->. reflexivity.
Qed.

Lemma raf_frame_delivered d s :
  consistent s ->
  delivered (frame d s) =
  match lastArgs s with
  | Some a =>
      mkDelivery (Z.max (now s) (now s + d)) (lastThis s) a :: delivered s
  | None => delivered s
  end.
Proof.
  unfold consistent. destruct (rafId s) as [id|] eqn:E.
  - intros (Hq & _). rewrite (raf_frame_queued d s id Hq).
    unfold on_frame. simpl. destruct (lastArgs s); reflexivity.
  - intros (Hq & Ha). rewrite (raf_frame_empty d s Hq), Ha. reflexivity.
Qed.

Lemma raf_frame_clears d s :
  consistent s ->
  frames (frame d s) = [] /\ rafId (frame d s) = None /\
  lastArgs (frame d s) = None /\
  now (frame d s) = Z.max (now s) (now s + d).
Proof.
  unfold consistent. destruct (rafId s) as [id|] eqn:E.
  - intros (Hq & _). rewrite (raf_frame_queued d s id Hq).
    unfold on_frame. simpl.
    destruct (lastArgs s) eqn:Ea; simpl; repeat split; assumption.
  - intros (Hq & Ha). rewrite (raf_frame_empty d s Hq). simpl.
    repeat split; assumption.
Qed.

Lemma raf_cancel_clears s :
  consistent s ->
  frames (cancel s) = [] /\ rafId (cancel s) = None /\
  lastArgs (cancel s) = None /\ delivered (cancel s) = delivered s /\
  lastThis (cancel s) = lastThis s /\ now (cancel s) = now s.
Proof.
  unfold consistent. destruct s as [n i q dl ri la lt]. simpl.
  destruct ri as [id|].
  - intros (-> & _). unfold cancel, cancelAnimationFrame. simpl.
    rewrite Pos.eqb_refl. simpl. auto 10.
  - intros (-> & _). unfold cancel. simpl. auto 10.
Qed.

Lemma raf_cancel_twice s : cancel (cancel s) = cancel s.
Proof.
  destruct s as [n i q dl ri la lt]. unfold cancel. simpl.
  destruct ri; reflexivity.
Qed.

(** *** The queue and [rafId] agree *)

Lemma raf_consistent_fresh start : consistent (fresh start : State Arg Ctx).
Proof. unfold consistent. simpl. auto. Qed.

Lemma raf_consistent_throttled this args s :
  consistent s -> consistent (throttled this args s).
Proof.
  unfold consistent. destruct (rafId s) as [id|] eqn:E.
  - rewrite (raf_throttled_again this args s id E). simpl. now rewrite E.
  - rewrite (raf_throttled_first this args s E). simpl.
    intros (-> & _). simpl. split; [reflexivity|lia].
Qed.

Lemma raf_consistent_frame d s : consistent s -> consistent (frame d s).
Proof.
  intros Hc. destruct (raf_frame_clears d s Hc) as (Hq & Hr & Ha & _).
  unfold consistent. rewrite Hr. auto.
Qed.

Lemma raf_consistent_cancel s : consistent s -> consistent (cancel s).
Proof.
  intros Hc. destruct (raf_cancel_clears s Hc) as (Hq & Hr & Ha & _).
  unfold consistent. rewrite Hr. auto.
Qed.

Lemma raf_consistent_run es :
  forall s, consistent s -> consistent (run es s).
Proof.
  induction es as [|e es IH]; simpl; intros s H; [assumption|].
  apply IH. destruct e; cbn [step];
    auto using raf_consistent_throttled, raf_consistent_frame,
    raf_consistent_cancel.
Qed.

Lemma raf_reachable_consistent s : reachable s -> consistent s.
Proof.
  intros (start & es & ->). apply raf_consistent_run, raf_consistent_fresh.
Qed.

(** *** Frames with nothing requested *)

Lemma raf_idle_frames ds :
  forall s, frames s = [] ->
            frames (run (map Frame ds) s) = [] /\
            delivered (run (map Frame ds) s) = delivered s.
Proof.
  induction ds as [|d ds IH]; intros s H; simpl; [auto|].
  rewrite (raf_frame_empty d s H).
  destruct (IH (set_now (Z.max (now s) (now s + d)) s) H). auto.
Qed.

(** *** Counting calls of [func] *)

Lemma raf_owed_step e s :
  consistent s ->
  (owed (step s e) <= owed s + length (calls_of [e]))%nat /\
  (length (delivered (step s e))
   <= length (delivered s) + frames_of [e])%nat.
Proof.
  intros Hc. unfold owed. destruct e; cbn [step calls_of frames_of length].
  - destruct (rafId s) as [id|] eqn:E.
    + rewrite (raf_throttled_again this args s id E). simpl.
      destruct (lastArgs s); lia.
    + rewrite (raf_throttled_first this args s E). simpl.
      destruct (lastArgs s); lia.
  - destruct (raf_frame_clears d s Hc) as (_ & _ & Ha & _).
    rewrite Ha, (raf_frame_delivered d s Hc).
    destruct (lastArgs s); simpl; lia.
  - destruct (raf_cancel_clears s Hc) as (_ & _ & Ha & Hd & _).
    rewrite Ha, Hd. destruct (lastArgs s); lia.
Qed.

Lemma raf_owed_run es :
  forall s, consistent s ->
            (owed (run es s) <= owed s + length (calls_of es))%nat /\
            (length (delivered (run es s))
             <= length (delivered s) + frames_of es)%nat.
Proof.
  induction es as [|e es IH]; intros s Hc; simpl run; [simpl; lia|].
  destruct (raf_owed_step e s Hc) as (H1 & H2).
  destruct (IH (step s e)) as (H3 & H4).
  { destruct e; cbn [step];
      auto using raf_consistent_throttled, raf_consistent_frame,
      raf_consistent_cancel. }
  destruct e; cbn [calls_of frames_of length] in *; lia.
Qed.

(** *** Where the arguments of a call of [func] come from *)

Lemma raf_traced_step P base e s :
  consistent s -> traced P base s -> traced (P ++ calls_of [e]) base (step s e).
Proof.
  intros Hc (Ha & new & Hd & Hn).
  destruct e; cbn [step calls_of].
  - assert (E : lastArgs (throttled this args s) = Some args /\
                lastThis (throttled this args s) = this /\
                delivered (throttled this args s) = delivered s).
    { destruct (rafId s) as [id|] eqn:E.
      - rewrite (raf_throttled_again this args s id E). auto.
      - rewrite (raf_throttled_first this args s E). auto. }
    destruct E as (E1 & E2 & E3). split.
    + rewrite E1, E2. intros a [= <-]. apply in_or_app. right. now left.
    + exists new. rewrite E3. split; [exact Hd|].
      intros x Hx. apply in_or_app. left. now apply Hn.
  - rewrite app_nil_r.
    destruct (raf_frame_clears d s Hc) as (_ & _ & E & _). split.
    + rewrite E. discriminate.
    + rewrite (raf_frame_delivered d s Hc).
      destruct (lastArgs s) as [a|] eqn:Ea.
      * exists (mkDelivery (Z.max (now s) (now s + d)) (lastThis s) a :: new).
        rewrite Hd. split; [reflexivity|].
        intros x [<-|Hx]; [now apply Ha|now apply Hn].
      * now exists new.
  - rewrite app_nil_r.
    destruct (raf_cancel_clears s Hc) as (_ & _ & E & Hd' & _). split.
    + rewrite E. discriminate.
    + exists new. now rewrite Hd'.
Qed.

Lemma raf_traced_run base es :
  forall P s, consistent s -> traced P base s ->
              traced (P ++ calls_of es) base (run es s).
Proof.
  induction es as [|e es IH]; intros P s Hc H; simpl run.
  - simpl. now rewrite app_nil_r.
  - replace (P ++ calls_of (e :: es))
      with ((P ++ calls_of [e]) ++ calls_of es)
      by (rewrite <- app_assoc; destruct e; reflexivity).
    apply IH.
    + destruct e; cbn [step];
        auto using raf_consistent_throttled, raf_consistent_frame,
        raf_consistent_cancel.
    + now apply raf_traced_step.
Qed.

End Facts.

(** *** Properties *)

(** X13. In every reachable state of a frame-throttled function at most
    one frame callback is queued, [rafId] is its handle, and a call is
    recorded only while one is queued.  A call never calls [func] itself;
    it leaves exactly one frame callback queued, and requests none when
    one is queued already. *)
Theorem raf_one_callback_outstanding {Arg Ctx : Type} (s : State Arg Ctx) :
  reachable s ->
  ((frames s = [] /\ rafId s = None /\ lastArgs s = None) \/
   (exists id, frames s = [id] /\ rafId s = Some id)) /\
  (forall this args,
      delivered (throttled this args s) = delivered s /\
      length (frames (throttled this args s)) = 1%nat /\
      (rafId s <> None ->
       frames (throttled this args s) = frames s /\
       nextId (throttled this args s) = nextId s)).
Proof.
  intros Hr. pose proof (raf_reachable_consistent s Hr) as Hc.
  unfold consistent in Hc. destruct (rafId s) as [id|] eqn:E.
  - destruct Hc as (Hq & _). split; [right; eauto|].
    intros this args. rewrite (raf_throttled_again this args s id E). simpl.
    rewrite Hq. auto.
  - destruct Hc as (Hq & Ha). split; [left; auto|].
    intros this args. rewrite (raf_throttled_first this args s E). simpl.
    rewrite Hq. repeat split; congruence.
Qed.

Lemma raf_one_callback_outstanding_witness :
  length
    (frames
       (throttled None [3%nat]
          (run [Call None [1%nat]; Call None [2%nat]] (fresh (Ctx:=nat) 0))))
  = 1%nat.
Proof.
  assert (Hr : reachable (run [Call None [1%nat]; Call None [2%nat]]
                              (fresh (Ctx:=nat) 0)))
    by (eexists 0, _; reflexivity).
  destruct (raf_one_callback_outstanding _ Hr) as (_ & H).
  apply (H None [3%nat]).
Defined.

(** X14. The next frame after a call delivers that call and nothing else:
    in any reachable state, whatever was recorded before, a call followed
    by a frame calls [func] exactly once, at the time of the frame, with
    [this] and the arguments of that call; the frame leaves nothing
    recorded and nothing queued, and the frames that follow deliver
    nothing. *)
Theorem raf_frame_delivers_last_call {Arg Ctx : Type} (s : State Arg Ctx)
        (this : option Ctx) (args : list Arg) (d : Z) :
  reachable s ->
  let s' := frame d (throttled this args s) in
  delivered s'
  = mkDelivery (Z.max (now s) (now s + d)) this args :: delivered s /\
  frames s' = [] /\ rafId s' = None /\ lastArgs s' = None /\
  forall ds, delivered (run (map Frame ds) s') = delivered s'.
Proof.
  intros Hr s'.
  pose proof (raf_reachable_consistent s Hr) as Hc.
  pose proof (raf_consistent_throttled this args s Hc) as Hc'.
  destruct (raf_frame_clears d _ Hc') as (Hq & Hi & Ha & _).
  fold s' in Hq, Hi, Ha.
  split; [|repeat split; try assumption;
           intros ds; now apply raf_idle_frames].
  unfold s'. rewrite (raf_frame_delivered d _ Hc').
  destruct (rafId s) as [id|] eqn:E.
  - now rewrite (raf_throttled_again this args s id E).
  - now rewrite (raf_throttled_first this args s E).
Qed.

Lemma raf_frame_delivers_last_call_witness :
  delivered
    (frame 16
       (throttled (Some 8%nat) [3%nat]
          (run [Call None [1%nat]; Frame 16; Call None [2%nat]]
               (fresh (Ctx:=nat) 0))))
  = [mkDelivery 32 (Some 8%nat) [3%nat]; mkDelivery 16 None [1%nat]].
Proof.
  assert (Hr : reachable (run [Call None [1%nat]; Frame 16; Call None [2%nat]]
                              (fresh (Ctx:=nat) 0)))
    by (eexists 0, _; reflexivity).
  destruct (raf_frame_delivers_last_call _ (Some 8%nat) [3%nat] 16 Hr)
    as (H & _).
  exact H.
Defined.

(** X15. [cancel] of a frame-throttled function revokes the queued frame
    callback and drops the recorded arguments (it keeps the recorded
    [this]): in a reachable state it leaves nothing queued, calls [func]
    for nothing, the frames that follow deliver nothing, and whatever the
    caller does afterwards every later call of [func] has [this] and the
    arguments of a call made after the cancel.  Cancelling twice is
    cancelling once. *)
Theorem raf_cancel_revokes_frame {Arg Ctx : Type} (s : State Arg Ctx) :
  reachable s ->
  frames (cancel s) = [] /\ rafId (cancel s) = None /\
  lastArgs (cancel s) = None /\ lastThis (cancel s) = lastThis s /\
  delivered (cancel s) = delivered s /\
  cancel (cancel s) = cancel s /\
  (forall ds, delivered (run (map Frame ds) (cancel s)) = delivered s) /\
  (forall es, traced (calls_of es) (delivered s) (run es (cancel s))).
Proof.
  intros Hr. pose proof (raf_reachable_consistent s Hr) as Hc.
  destruct (raf_cancel_clears s Hc) as (Hq & Hi & Ha & Hd & Ht & _).
  repeat split; try assumption.
  - apply raf_cancel_twice.
  - intros ds. destruct (raf_idle_frames ds _ Hq) as (_ & E). congruence.
  - apply (raf_traced_run (delivered s) es [] (cancel s)
             (raf_consistent_cancel s Hc)).
    split; [rewrite Ha; discriminate|].
    exists []. split; [now rewrite Hd|intros x []].
  - destruct (raf_traced_run (delivered s) es [] (cancel s)
                (raf_consistent_cancel s Hc)) as (_ & H); [|exact H].
    split; [rewrite Ha; discriminate|].
    exists []. split; [now rewrite Hd|intros x []].
Qed.

Lemma raf_cancel_revokes_frame_witness :
  delivered
    (run (map Frame [16; 16])
       (cancel (run [Call None [1%nat]; Frame 16; Call None [2%nat]]
                    (fresh (Ctx:=nat) 0))))
  = [mkDelivery 16 None [1%nat]].
Proof.
  assert (Hr : reachable (run [Call None [1%nat]; Frame 16; Call None [2%nat]]
                              (fresh (Ctx:=nat) 0)))
    by (eexists 0, _; reflexivity).
  destruct (raf_cancel_revokes_frame _ Hr) as (_ & _ & _ & _ & _ & _ & H & _).
  apply (H [16; 16]).
Defined.

(** X16. Whatever the caller does with a new frame-throttled function,
    [func] is called at most once per frame and at most once per call of
    the throttled function, each time with [this] and the arguments of
    one of those calls. *)
Theorem raf_at_most_one_delivery_per_frame {Arg Ctx : Type} (start : Z)
        (es : list (event Arg Ctx)) :
  (length (delivered (run es (fresh start))) <= frames_of es)%nat /\
  (length (delivered (run es (fresh start))) <= length (calls_of es))%nat /\
  forall x, In x (delivered (run es (fresh start))) ->
            In (thisArg x, argsOf x) (calls_of es).
Proof.
  destruct (raf_owed_run es (fresh start) (raf_consistent_fresh start))
    as (H1 & H2).
  unfold owed in H1. simpl in H1, H2.
  split; [lia|]. split; [lia|].
  destruct (raf_traced_run [] es [] (fresh start)
              (raf_consistent_fresh start)) as (_ & new & E & H).
  - split; [discriminate|]. exists []. split; [reflexivity|intros x []].
  - rewrite app_nil_r in E. rewrite E. exact H.
Qed.

End RafFacts.
